(** * Q-Shield: quaternion arithmetic modulo [m] and the conjugation exchange

    A shallow embedding of [utils/quaternionMath.ts] (modules [QMath] and
    [QMathDouble]) and of the three protocol handlers of
    [components/SimulationLab.tsx] (module [SimulationLab]), followed by the
    properties established about them.

    Number model.  The TypeScript code computes on [number], that is on
    binary64 doubles, and every value the arithmetic engine handles is an
    integer.  The functions are given in two readings:
      - [QMath], on exact integers [Z].  This is what the code computes for
        as long as every intermediate result stays within [2^53], where [+],
        [-] and [*] are exact.  The handlers only ever hold the moduli [13],
        [251] and [1009] and components below [1009], far inside that range,
        and they are embedded over this reading.
      - [QMathDouble], on integers held in doubles, with the rounding of [+],
        [-] and [*] written out.  The exported functions can be called on
        any safe integer, and the properties stated of them for every input
        are stated over this reading, with the bounds they need;
        [QMathDoubleFacts] shows that below those bounds the two readings
        return the same values.
    In both:
      - [n % m] is the truncating remainder, [Z.rem n m];
      - [Math.floor (a / b)] is the floor quotient, [a / b] on [Z];
      - [modulus?: number] is an [option Z], and the test [if (modulus)]
        succeeds on [Some m] with [m <> 0] only. *)

From Stdlib Require Import ZArith Znumtheory Zdiv Lia Bool List String.
From Stdlib Require Import Setoid Morphisms.
From Stdlib Require Import Ascii Decimal DecimalString DecimalZ DecimalPos.
From Equations Require Import Equations.
Import ListNotations.

Local Open Scope Z_scope.

(* ===================================================================== *)
(** ** utils/quaternionMath.ts                                            *)
(* ===================================================================== *)

Module QMath.

(** [mod (n, m) = ((n % m) + m) % m]. *)
Definition mod_ (n m : Z) : Z :=
  Z.rem (Z.rem n m + m) m.

(** The [while (r !== 0)] loop of [modInverse], on the six loop variables.
    It returns the values of [old_r], [old_s] and [old_t] on exit.  Each
    iteration replaces [r] by [old_r - floor (old_r / r) * r], whose absolute
    value is smaller than that of [r]. *)
Equations? modInverse_loop (old_r r old_s s old_t t : Z) : Z * Z * Z
  by wf (Z.abs_nat r) lt :=
  modInverse_loop old_r r old_s s old_t t with Z.eq_dec r 0 => {
    | left _ := (old_r, old_s, old_t);
    | right _ :=
        let quotient := old_r / r in
        modInverse_loop r (old_r - quotient * r)
                        s (old_s - quotient * s)
                        t (old_t - quotient * t) }.
Proof.
  subst quotient.
  assert (E : old_r - old_r / r * r = old_r mod r)
    by (rewrite Z.mod_eq by assumption; ring).
  rewrite E.
  destruct (Z_lt_ge_dec 0 r) as [Hpos | Hneg].
  - pose proof (Z.mod_pos_bound old_r r Hpos). lia.
  - assert (Hlt : r < 0) by lia.
    pose proof (Z.mod_neg_bound old_r r Hlt). lia.
Qed.

(** [modInverse (a, m)]: extended Euclidean algorithm, then [mod (old_s, m)]. *)
Definition modInverse (a m : Z) : Z :=
  let '(_, old_s, _) := modInverse_loop a m 1 0 0 1 in
  mod_ old_s m.

Record Quaternion : Set := mkQ { w : Z; x : Z; y : Z; z : Z }.

Definition createQuaternion (w x y z : Z) : Quaternion := mkQ w x y z.

(** Truthiness of an optional numeric argument: [undefined] and [0] are
    falsy. *)
Definition given (modulus : option Z) : option Z :=
  match modulus with
  | Some m => if m =? 0 then None else Some m
  | None => None
  end.

Definition addQ (q1 q2 : Quaternion) (modulus : option Z) : Quaternion :=
  match given modulus with
  | Some m =>
      {| w := mod_ (w q1 + w q2) m;
         x := mod_ (x q1 + x q2) m;
         y := mod_ (y q1 + y q2) m;
         z := mod_ (z q1 + z q2) m |}
  | None =>
      {| w := w q1 + w q2;
         x := x q1 + x q2;
         y := y q1 + y q2;
         z := z q1 + z q2 |}
  end.

(** Hamilton product. *)
Definition mulQ (q1 q2 : Quaternion) (modulus : option Z) : Quaternion :=
  let w' := w q1 * w q2 - x q1 * x q2 - y q1 * y q2 - z q1 * z q2 in
  let x' := w q1 * x q2 + x q1 * w q2 + y q1 * z q2 - z q1 * y q2 in
  let y' := w q1 * y q2 - x q1 * z q2 + y q1 * w q2 + z q1 * x q2 in
  let z' := w q1 * z q2 + x q1 * y q2 - y q1 * x q2 + z q1 * w q2 in
  match given modulus with
  | Some m =>
      {| w := mod_ w' m; x := mod_ x' m; y := mod_ y' m; z := mod_ z' m |}
  | None => {| w := w'; x := x'; y := y'; z := z' |}
  end.

Definition conjugateQ (q : Quaternion) (modulus : option Z) : Quaternion :=
  match given modulus with
  | Some m =>
      {| w := mod_ (w q) m;
         x := mod_ (- x q) m;
         y := mod_ (- y q) m;
         z := mod_ (- z q) m |}
  | None => {| w := w q; x := - x q; y := - y q; z := - z q |}
  end.

Definition normSqQ (q : Quaternion) (modulus : option Z) : Z :=
  let val := w q * w q + x q * x q + y q * y q + z q * z q in
  match given modulus with
  | Some m => mod_ val m
  | None => val
  end.

(** What [invQ] returns.  [Null] is JavaScript's [null].  [Inverse] is the
    object built in the modular branch.  [Quotient c n] stands for the object
    built in the branch without a modulus, whose components are the real
    quotients [c.w / n], [c.x / n], [c.y / n], [c.z / n]; they are not
    integers in general, so they are kept as numerator and denominator. *)
Inductive InvResult : Set :=
| Null
| Inverse (q : Quaternion)
| Quotient (conj : Quaternion) (nSq : Z).

(** [modInverse] has no [throw], so the [try] block of [invQ] always runs to
    its [return] and the [catch] clause is never entered. *)
Definition invQ (q : Quaternion) (modulus : option Z) : InvResult :=
  let nSq := normSqQ q modulus in
  if nSq =? 0 then Null
  else
    match given modulus with
    | Some m =>
        let nSqInv := modInverse nSq m in
        let conj := conjugateQ q modulus in
        Inverse {| w := mod_ (w conj * nSqInv) m;
                   x := mod_ (x conj * nSqInv) m;
                   y := mod_ (y conj * nSqInv) m;
                   z := mod_ (z conj * nSqInv) m |}
    | None =>
        let conj := conjugateQ q None in
        Quotient conj nSq
    end.

(** [!v] for a value of type [Quaternion | null]: only [null] is falsy. *)
Definition isNull (r : InvResult) : bool :=
  match r with
  | Null => true
  | _ => false
  end.

(** [randomQuaternion (max)] calls [Math.floor (Math.random () * max)] four
    times.  The source of randomness is an oracle: [rnd k max] is the integer
    obtained by the [k]-th such call of the session, and [n] counts the calls
    made before this one. *)
Definition randomQuaternion (rnd : nat -> Z -> Z) (n : nat) (max : Z)
  : Quaternion :=
  {| w := rnd n max;
     x := rnd (n + 1)%nat max;
     y := rnd (n + 2)%nat max;
     z := rnd (n + 3)%nat max |}.

(** Componentwise equality of the four integer fields. *)
Definition eqQ (q1 q2 : Quaternion) : bool :=
  (w q1 =? w q2) && (x q1 =? x q2) && (y q1 =? y q2) && (z q1 =? z q2).

(** [n.toFixed (0)] for an integer [n] below [1e21] in absolute value: its
    decimal digits, after a minus sign when it is negative. *)
Definition toFixed0 (n : Z) : string :=
  NilZero.string_of_int (Z.to_int n).

Definition formatQ (q : Quaternion) : string :=
  ("[" ++ toFixed0 (w q) ++ ", " ++ toFixed0 (x q) ++ "i, "
   ++ toFixed0 (y q) ++ "j, " ++ toFixed0 (z q) ++ "k]")%string.

(** *** Vocabulary for the properties below *)

(** The characters [toFixed0] writes: the minus sign and the ten digits. *)
Definition isNumeric (c : ascii) : bool :=
  let n := nat_of_ascii c in
  ((n =? 45) || ((48 <=? n) && (n <=? 57)))%nat.

Fixpoint allNumeric (s : string) : bool :=
  match s with
  | EmptyString => true
  | String c s' => isNumeric c && allNumeric s'
  end.

(** Every component is a residue in [[0, m)]. *)
Definition inRange (m : Z) (q : Quaternion) : Prop :=
  0 <= w q < m /\ 0 <= x q < m /\ 0 <= y q < m /\ 0 <= z q < m.

(** Componentwise congruence modulo [m]. *)
Definition congQ (m : Z) (a b : Quaternion) : Prop :=
  eqm m (w a) (w b) /\ eqm m (x a) (x b) /\
  eqm m (y a) (y b) /\ eqm m (z a) (z b).

End QMath.

(* ===================================================================== *)
(** ** utils/quaternionMath.ts on binary64 numbers                        *)
(* ===================================================================== *)

(** The same functions with the rounding of JavaScript's [number] written
    out.  A value is still an integer, held in a binary64 double: [+], [-]
    and [*] return the double nearest to the exact result ([double]), while
    [%] and unary minus are exact.  The two zeros of binary64 are one value
    here: the code tells them apart nowhere ([===], [!==], [%],
    [JSON.stringify] and [toFixed] treat [-0] as [0]).

    [Math.floor (a / b)] rounds the quotient before taking the floor.  For
    [|a| <= 2^53] this changes nothing: a quotient that is not an integer is
    at least [1 / |b|] away from the next one, which is more than half the
    spacing of the doubles there, so the rounded quotient does not reach it
    and the floor is that of the exact quotient, [a / b] on [Z].

    Three things stay outside this reading: results of [2^1024] and beyond
    (the code has [Infinity]), [n % 0] (the code has [NaN]), and
    [Math.floor (a / b)] for [a] beyond [2^53]. *)
Module QMathDouble.

Import QMath.

(** The binary64 value nearest to the integer [n], ties to the even
    significand: integers up to [2^53] in absolute value are kept, larger
    ones are rounded to 53 significant bits. *)
Definition double (n : Z) : Z :=
  if Z.abs n <=? 2 ^ 53 then n
  else
    let ulp := 2 ^ (Z.log2 (Z.abs n) - 52) in
    let q := Z.abs n / ulp in
    let r := Z.abs n mod ulp in
    let q' :=
      if 2 * r <? ulp then q
      else if ulp <? 2 * r then q + 1
      else if Z.even q then q else q + 1 in
    Z.sgn n * (q' * ulp).

(** [a + b], [a - b] and [a * b] on doubles. *)
Definition add (a b : Z) : Z := double (a + b).
Definition sub (a b : Z) : Z := double (a - b).
Definition mul (a b : Z) : Z := double (a * b).

(** [mod (n, m) = ((n % m) + m) % m]. *)
Definition mod_ (n m : Z) : Z :=
  Z.rem (add (Z.rem n m) m) m.

(** The [while (r !== 0)] loop of [modInverse], with at most [fuel]
    iterations: once the products are rounded nothing forces [r] to
    shrink. *)
Fixpoint modInverse_loop (fuel : nat) (old_r r old_s s old_t t : Z)
  : option (Z * Z * Z) :=
  if r =? 0 then Some (old_r, old_s, old_t)
  else
    match fuel with
    | O => None
    | S fuel' =>
        let quotient := old_r / r in
        modInverse_loop fuel'
          r (sub old_r (mul quotient r))
          s (sub old_s (mul quotient s))
          t (sub old_t (mul quotient t))
    end.

Definition modInverse (fuel : nat) (a m : Z) : option Z :=
  match modInverse_loop fuel a m 1 0 0 1 with
  | Some (_, old_s, _) => Some (mod_ old_s m)
  | None => None
  end.

Definition addQ (q1 q2 : Quaternion) (modulus : option Z) : Quaternion :=
  match given modulus with
  | Some m =>
      {| w := mod_ (add (w q1) (w q2)) m;
         x := mod_ (add (x q1) (x q2)) m;
         y := mod_ (add (y q1) (y q2)) m;
         z := mod_ (add (z q1) (z q2)) m |}
  | None =>
      {| w := add (w q1) (w q2);
         x := add (x q1) (x q2);
         y := add (y q1) (y q2);
         z := add (z q1) (z q2) |}
  end.

(** Hamilton product; each line is evaluated from left to right. *)
Definition mulQ (q1 q2 : Quaternion) (modulus : option Z) : Quaternion :=
  let w' := sub (sub (sub (mul (w q1) (w q2)) (mul (x q1) (x q2)))
                     (mul (y q1) (y q2)))
                (mul (z q1) (z q2)) in
  let x' := sub (add (add (mul (w q1) (x q2)) (mul (x q1) (w q2)))
                     (mul (y q1) (z q2)))
                (mul (z q1) (y q2)) in
  let y' := add (add (sub (mul (w q1) (y q2)) (mul (x q1) (z q2)))
                     (mul (y q1) (w q2)))
                (mul (z q1) (x q2)) in
  let z' := add (sub (add (mul (w q1) (z q2)) (mul (x q1) (y q2)))
                     (mul (y q1) (x q2)))
                (mul (z q1) (w q2)) in
  match given modulus with
  | Some m =>
      {| w := mod_ w' m; x := mod_ x' m; y := mod_ y' m; z := mod_ z' m |}
  | None => {| w := w'; x := x'; y := y'; z := z' |}
  end.

Definition conjugateQ (q : Quaternion) (modulus : option Z) : Quaternion :=
  match given modulus with
  | Some m =>
      {| w := mod_ (w q) m;
         x := mod_ (- x q) m;
         y := mod_ (- y q) m;
         z := mod_ (- z q) m |}
  | None => {| w := w q; x := - x q; y := - y q; z := - z q |}
  end.

Definition normSqQ (q : Quaternion) (modulus : option Z) : Z :=
  let val := add (add (add (mul (w q) (w q)) (mul (x q) (x q)))
                      (mul (y q) (y q)))
                 (mul (z q) (z q)) in
  match given modulus with
  | Some m => mod_ val m
  | None => val
  end.

(** [invQ]; [None] when the loop of [modInverse] is still running after
    [fuel] iterations. *)
Definition invQ (fuel : nat) (q : Quaternion) (modulus : option Z)
  : option InvResult :=
  let nSq := normSqQ q modulus in
  if nSq =? 0 then Some Null
  else
    match given modulus with
    | Some m =>
        match modInverse fuel nSq m with
        | Some nSqInv =>
            let conj := conjugateQ q modulus in
            Some (Inverse {| w := mod_ (mul (w conj) nSqInv) m;
                             x := mod_ (mul (x conj) nSqInv) m;
                             y := mod_ (mul (y conj) nSqInv) m;
                             z := mod_ (mul (z conj) nSqInv) m |})
        | None => None
        end
    | None =>
        let conj := conjugateQ q None in
        Some (Quotient conj nSq)
    end.

(** Every component is at most [b] in absolute value. *)
Definition within (b : Z) (q : Quaternion) : Prop :=
  Z.abs (w q) <= b /\ Z.abs (x q) <= b /\
  Z.abs (y q) <= b /\ Z.abs (z q) <= b.

End QMathDouble.

(* ===================================================================== *)
(** ** components/SimulationLab.tsx                                       *)
(* ===================================================================== *)

Module SimulationLab.

Import QMath.
Local Open Scope string_scope.

Record SimulationState : Set := mkState {
  modulus : Z;
  baseP : Quaternion;
  aliceSecret : Quaternion;
  bobSecret : Quaternion;
  alicePublic : option Quaternion;
  bobPublic : option Quaternion;
  sharedSecretA : option Quaternion;
  sharedSecretB : option Quaternion
}.

Definition INITIAL_STATE : SimulationState :=
  {| modulus := 13;
     baseP := mkQ 1 2 3 4;
     aliceSecret := mkQ 2 1 0 1;
     bobSecret := mkQ 1 3 1 0;
     alicePublic := None;
     bobPublic := None;
     sharedSecretA := None;
     sharedSecretB := None |}.

(** What the handlers read from outside: the random integers and the wall
    clock ([new Date ().toLocaleTimeString ()], by reading number). *)
Record Env : Type := mkEnv {
  floorRandom : nat -> Z -> Z;
  toLocaleTimeString : nat -> string
}.

(** The component's two state cells, and how much of the environment has been
    consumed. *)
Record World : Type := mkWorld {
  state : SimulationState;
  log : list string;
  draws : nat;
  ticks : nat
}.

(** A handler either returns, or is still inside a resampling loop when the
    fuel of the model is spent, or has produced a non-integer quaternion (only
    after [invQ] took its branch without a modulus). *)
Inductive Outcome (A : Type) : Type :=
| Done (a : A) (world : World)
| OutOfFuel
| Inexact.
Arguments Done {A} a world.
Arguments OutOfFuel {A}.
Arguments Inexact {A}.

Definition M (A : Type) : Type := World -> Outcome A.

Definition ret {A} (a : A) : M A := fun world => Done a world.

Definition bind {A B} (c : M A) (k : A -> M B) : M B :=
  fun world =>
    match c world with
    | Done a world' => k a world'
    | OutOfFuel => OutOfFuel
    | Inexact => Inexact
    end.

Notation "x <- c ;; k" := (bind c (fun x => k))
  (at level 61, c at next level, right associativity).
Notation "c ;;; k" := (bind c (fun _ => k))
  (at level 61, right associativity).

Definition getState : M SimulationState := fun world => Done (state world) world.

Definition setState (f : SimulationState -> SimulationState) : M unit :=
  fun world =>
    Done tt {| state := f (state world); log := log world;
               draws := draws world; ticks := ticks world |}.

Definition spent {A} : M A := fun _ => OutOfFuel.
Definition inexact {A} : M A := fun _ => Inexact.

Section Handlers.

Variable env : Env.

(** [addLog (msg)] puts the time-stamped message in front of the log. *)
Definition addLog (msg : string) : M unit :=
  fun world =>
    Done tt {| state := state world;
               log := ("[" ++ toLocaleTimeString env (ticks world) ++ "] "
                       ++ msg) :: log world;
               draws := draws world;
               ticks := S (ticks world) |}.

Definition random (max : Z) : M Quaternion :=
  fun world =>
    Done (randomQuaternion (floorRandom env) (draws world) max)
         {| state := state world; log := log world;
            draws := (draws world + 4)%nat; ticks := ticks world |}.

(** [while (!QMath.invQ (sec, mod)) sec = QMath.randomQuaternion (mod);] with
    at most [fuel] further samples. *)
Fixpoint resample (fuel : nat) (mod_ : Z) (sec : Quaternion) : M Quaternion :=
  if isNull (invQ sec (Some mod_)) then
    match fuel with
    | O => spent
    | S fuel' => sec' <- random mod_ ;; resample fuel' mod_ sec'
    end
  else ret sec.

Definition generateKeys (fuel : nat) : M unit :=
  st <- getState ;;
  let mod_ := modulus st in
  base <- random mod_ ;;
  aliceSec0 <- random mod_ ;;
  aliceSec <- resample fuel mod_ aliceSec0 ;;
  bobSec0 <- random mod_ ;;
  bobSec <- resample fuel mod_ bobSec0 ;;
  setState (fun prev =>
    {| modulus := modulus prev;
       baseP := base;
       aliceSecret := aliceSec;
       bobSecret := bobSec;
       alicePublic := None;
       bobPublic := None;
       sharedSecretA := None;
       sharedSecretB := None |}) ;;;
  addLog "Generated new parameters and private keys.".

Definition performExchange (fuel : nat) : M unit :=
  st <- getState ;;
  let aliceInv := invQ (aliceSecret st) (Some (modulus st)) in
  let bobInv := invQ (bobSecret st) (Some (modulus st)) in
  if isNull aliceInv || isNull bobInv then
    addLog "Error: Generated non-invertible secrets. Regenerating..." ;;;
    generateKeys fuel
  else
    match aliceInv, bobInv with
    | Inverse aliceInv, Inverse bobInv =>
        let alicePub :=
          mulQ (mulQ (aliceSecret st) (baseP st) (Some (modulus st)))
               aliceInv (Some (modulus st)) in
        let bobPub :=
          mulQ (mulQ (bobSecret st) (baseP st) (Some (modulus st)))
               bobInv (Some (modulus st)) in
        setState (fun prev =>
          {| modulus := modulus prev;
             baseP := baseP prev;
             aliceSecret := aliceSecret prev;
             bobSecret := bobSecret prev;
             alicePublic := Some alicePub;
             bobPublic := Some bobPub;
             sharedSecretA := sharedSecretA prev;
             sharedSecretB := sharedSecretB prev |}) ;;;
        addLog "Public values computed and exchanged via Conjugation."
    | _, _ => inexact
    end.

Definition computeSharedSecret : M unit :=
  st <- getState ;;
  match alicePublic st, bobPublic st with
  | Some alicePub, Some bobPub =>
      let aliceInv := invQ (aliceSecret st) (Some (modulus st)) in
      let bobInv := invQ (bobSecret st) (Some (modulus st)) in
      if isNull aliceInv || isNull bobInv then ret tt
      else
        match aliceInv, bobInv with
        | Inverse aliceInv, Inverse bobInv =>
            let kA :=
              mulQ (mulQ (aliceSecret st) bobPub (Some (modulus st)))
                   aliceInv (Some (modulus st)) in
            let kB :=
              mulQ (mulQ (bobSecret st) alicePub (Some (modulus st)))
                   bobInv (Some (modulus st)) in
            setState (fun prev =>
              {| modulus := modulus prev;
                 baseP := baseP prev;
                 aliceSecret := aliceSecret prev;
                 bobSecret := bobSecret prev;
                 alicePublic := alicePublic prev;
                 bobPublic := bobPublic prev;
                 sharedSecretA := Some kA;
                 sharedSecretB := Some kB |}) ;;;
            addLog "Shared values computed." ;;;
            addLog ("Check: Are they equal? "
                    ++ (if eqQ kA kB then "YES"
                        else "NO (Expected for non-commutative)"))
        | _, _ => inexact
        end
  | _, _ => ret tt
  end.

(** [secretsMatch], the equality check of the render. *)
Definition secretsMatch (st : SimulationState) : bool :=
  match sharedSecretA st, sharedSecretB st with
  | Some a, Some b => eqQ a b
  | _, _ => false
  end.

End Handlers.

(** The caller of a handler sees it return. *)
Definition returnsNormally {A} (o : Outcome A) : Prop :=
  exists a world', o = Done a world'.

(** Every resampling loop meets a sample that [invQ] accepts: from any
    position [d] of the random sequence, one of the quaternions read at
    [d], [d + 4], [d + 8], ... has an inverse modulo [m]. *)
Definition eventuallyInvertible (env : Env) (m : Z) : Prop :=
  forall d : nat, exists k : nat,
    isNull (invQ (randomQuaternion (floorRandom env) (d + 4 * k) m) (Some m))
    = false.

(** The four derived fields are absent. *)
Definition derivedAbsent (st : SimulationState) : Prop :=
  alicePublic st = None /\ bobPublic st = None /\
  sharedSecretA st = None /\ sharedSecretB st = None.

(** *** Sample sessions *)

(** Every random integer is [1], every clock reading is noon. *)
Definition constantEnv : Env :=
  {| floorRandom := fun _ _ => 1;
     toLocaleTimeString := fun _ => "12:00:00" |}.

(** The component as first rendered. *)
Definition initialWorld : World :=
  {| state := INITIAL_STATE; log := []; draws := 0; ticks := 0 |}.

(** A session whose first secret has been replaced by the zero quaternion. *)
Definition zeroSecretWorld : World :=
  {| state :=
       {| modulus := 13;
          baseP := mkQ 1 2 3 4;
          aliceSecret := mkQ 0 0 0 0;
          bobSecret := mkQ 1 3 1 0;
          alicePublic := None;
          bobPublic := None;
          sharedSecretA := None;
          sharedSecretB := None |};
     log := []; draws := 0; ticks := 0 |}.

(** A session after both later phases have run on [INITIAL_STATE]. *)
Definition derivedWorld : World :=
  {| state :=
       {| modulus := 13;
          baseP := mkQ 1 2 3 4;
          aliceSecret := mkQ 2 1 0 1;
          bobSecret := mkQ 1 3 1 0;
          alicePublic := Some (mkQ 1 5 4 1);
          bobPublic := Some (mkQ 1 4 10 11);
          sharedSecretA := Some (mkQ 1 4 3 11);
          sharedSecretB := Some (mkQ 1 10 2 4) |};
     log := []; draws := 0; ticks := 0 |}.

(** *** The rest of the component's logic *)

Definition isPresent (o : option Quaternion) : bool :=
  match o with
  | Some _ => true
  | None => false
  end.

(** [disabled={!!state.alicePublic}] on the exchange button. *)
Definition exchangeDisabled (st : SimulationState) : bool :=
  isPresent (alicePublic st).

(** [disabled={!state.alicePublic || !!state.sharedSecretA}] on the
    derivation button. *)
Definition deriveDisabled (st : SimulationState) : bool :=
  negb (isPresent (alicePublic st)) || isPresent (sharedSecretA st).

(** [onChange] of the modulus selector:
    [setState ({ ...state, modulus: parseInt (e.target.value) })], where
    [value] is the integer [parseInt] reads from the chosen option. *)
Definition changeModulus (value : Z) : M unit :=
  st <- getState ;;
  setState (fun _ =>
    {| modulus := value;
       baseP := baseP st;
       aliceSecret := aliceSecret st;
       bobSecret := bobSecret st;
       alicePublic := alicePublic st;
       bobPublic := bobPublic st;
       sharedSecretA := sharedSecretA st;
       sharedSecretB := sharedSecretB st |}).

(** The worlds a session can be in: the first render, then any sequence of
    the four handlers that returned. *)
Inductive Reachable (env : Env) : World -> Prop :=
| reach_initial : Reachable env initialWorld
| reach_generateKeys fuel world world' :
    Reachable env world ->
    generateKeys env fuel world = Done tt world' ->
    Reachable env world'
| reach_performExchange fuel world world' :
    Reachable env world ->
    performExchange env fuel world = Done tt world' ->
    Reachable env world'
| reach_computeSharedSecret world world' :
    Reachable env world ->
    computeSharedSecret env world = Done tt world' ->
    Reachable env world'
| reach_changeModulus value world world' :
    Reachable env world ->
    changeModulus value world = Done tt world' ->
    Reachable env world'.

(** Public values come in pairs, shared values come in pairs, and shared
    values are only there when public values are. *)
Definition phasesConsistent (st : SimulationState) : Prop :=
  isPresent (alicePublic st) = isPresent (bobPublic st) /\
  isPresent (sharedSecretA st) = isPresent (sharedSecretB st) /\
  (isPresent (sharedSecretA st) = true -> isPresent (alicePublic st) = true).

End SimulationLab.

(* ===================================================================== *)
(** ** Properties of the arithmetic engine                                *)
(* ===================================================================== *)

Module QMathFacts.

Import QMath.

(** *** [mod] *)

Lemma rem_congr (n m : Z) : 0 < m -> (Z.rem n m) mod m = n mod m.
Proof.
  intros Hm.
  rewrite (Z.quot_rem' n m) at 2.
  rewrite Z.add_comm, Z.mul_comm.
  now rewrite Z_mod_plus_full.
Qed.

Lemma mod_modulo (n m : Z) : 0 < m -> mod_ n m = n mod m.
Proof.
  intros Hm. unfold mod_.
  assert (Hb : - m < Z.rem n m < m).
  { assert (Z.abs (Z.rem n m) < Z.abs m) by (apply Z.rem_bound_abs; lia).
    lia. }
  rewrite Z.rem_mod_nonneg by lia.
  rewrite <- (rem_congr n m Hm).
  rewrite <- (Z_mod_plus_full (Z.rem n m) 1 m).
  f_equal. ring.
Qed.

Lemma mod_range (n m : Z) : 0 < m -> 0 <= mod_ n m < m.
Proof.
  intros Hm. rewrite mod_modulo by assumption.
  apply Z.mod_pos_bound; assumption.
Qed.

(** *** The loop of [modInverse] *)

(** On exit, [old_r] is a combination of [a] and [m] with coefficients
    [old_s] and [old_t], its absolute value is the gcd of the initial pair,
    and it is not negative when the loop starts from a non-negative [r]. *)
Lemma modInverse_loop_spec (a m : Z) (old_r r old_s s old_t t : Z) :
  old_r = a * old_s + m * old_t ->
  r = a * s + m * t ->
  forall g u v, modInverse_loop old_r r old_s s old_t t = (g, u, v) ->
  g = a * u + m * v /\
  Z.abs g = Z.gcd old_r r /\
  (0 <= r -> (r = 0 -> 0 <= old_r) -> 0 <= g).
Proof.
  funelim (modInverse_loop old_r r old_s s old_t t).
  all: intros Hold Hr g u v Hres.
  - inversion Hres; subst g u v. subst r.
    rewrite Z.gcd_0_r. repeat split; auto; lia.
  - match goal with
    | IH : forall a m : Z, _ |- _ =>
        specialize (IH a m); rename IH into IHloop
    end.
    assert (Hstep : old_r - old_r / r * r
                    = a * (old_s - old_r / r * s) + m * (old_t - old_r / r * t)).
    { generalize (old_r / r). intros q. rewrite Hold, Hr. ring. }
    destruct (IHloop Hr Hstep g u v Hres) as (Hbez & Hgcd & Hsign).
    split; [exact Hbez | split].
    + rewrite Hgcd.
      replace (old_r - old_r / r * r) with (old_r + (- (old_r / r)) * r) by ring.
      rewrite Z.gcd_add_mult_diag_r. apply Z.gcd_comm.
    + intros Hr0 _. apply Hsign.
      * assert (E : old_r - old_r / r * r = old_r mod r)
          by (rewrite Z.mod_eq by assumption; ring).
        rewrite E. apply Z.mod_pos_bound. lia.
      * intros _. exact Hr0.
Qed.

(** *** [modInverse] *)

Lemma modInverse_range (a m : Z) : 0 < m -> 0 <= modInverse a m < m.
Proof.
  intros Hm. unfold modInverse.
  destruct (modInverse_loop a m 1 0 0 1) as [[g u] v].
  apply mod_range; assumption.
Qed.

Lemma modInverse_inverse (a m : Z) :
  0 < m -> Z.gcd a m = 1 -> (a * modInverse a m) mod m = 1 mod m.
Proof.
  intros Hm Hgcd. unfold modInverse.
  destruct (modInverse_loop a m 1 0 0 1) as [[g u] v] eqn:Hloop.
  destruct (modInverse_loop_spec a m a m 1 0 0 1) with (g := g) (u := u) (v := v)
    as (Hbez & Habs & Hsign); [ring | ring | exact Hloop |].
  assert (Hg : g = 1) by lia.
  rewrite mod_modulo by assumption.
  rewrite Z.mul_mod_idemp_r by lia.
  replace (a * u) with (1 + (- v) * m) by lia.
  apply Z_mod_plus_full.
Qed.

(** Two residues that both invert [a] modulo [m] are equal. *)
Lemma inverse_unique (a m s1 s2 : Z) :
  0 < m ->
  0 <= s1 < m -> 0 <= s2 < m ->
  (a * s1) mod m = 1 mod m -> (a * s2) mod m = 1 mod m ->
  s1 = s2.
Proof.
  intros Hm H1 H2 E1 E2.
  assert (C : (s1 * (a * s2)) mod m = (s2 * (a * s1)) mod m)
    by (f_equal; ring).
  rewrite <- Z.mul_mod_idemp_r, E2, Z.mul_mod_idemp_r in C by lia.
  rewrite <- (Z.mul_mod_idemp_r s2), E1, Z.mul_mod_idemp_r in C by lia.
  rewrite !Z.mul_1_r in C.
  rewrite !Z.mod_small in C by assumption.
  exact C.
Qed.

(** On exact integers.  For every integer [a], negative ones included, and every positive
    [m], [mod (a, m)] lies in [[0, m)] and is congruent to [a] modulo [m]: it
    differs from [a] by a multiple of [m] and is the floored (mathematical)
    residue [a mod m], not the truncating remainder [a % m]. *)
Theorem mod_is_mathematical_modulo (a m : Z) :
  0 < m ->
  0 <= mod_ a m < m /\
  (exists k, mod_ a m = a + k * m) /\
  mod_ a m = a mod m.
Proof.
  intros Hm. split; [apply mod_range; assumption | split].
  - exists (- (a / m)). rewrite mod_modulo by assumption.
    rewrite Z.mod_eq by lia. ring.
  - apply mod_modulo; assumption.
Qed.

Lemma mod_is_mathematical_modulo_witness :
  0 <= mod_ (-7) 13 < 13 /\
  (exists k, mod_ (-7) 13 = -7 + k * 13) /\
  mod_ (-7) 13 = (-7) mod 13.
Proof. apply (mod_is_mathematical_modulo (-7) 13). lia. Defined.

(** On a negative argument the truncating remainder is negative, [mod] is
    not. *)
Example mod_vs_rem : Z.rem (-7) 13 = -7 /\ mod_ (-7) 13 = 6.
Proof. split; reflexivity. Qed.

(** On exact integers.  For [m] positive and [gcd (a, m) = 1], [modInverse (a, m)] is the
    unique [s] in [[0, m)] with [a * s] congruent to [1] modulo [m]; whatever
    the sign of the coefficient the loop ends with, the result is in
    [[0, m)]. *)
Theorem modInverse_unique_inverse (a m : Z) :
  0 < m -> Z.gcd a m = 1 ->
  0 <= modInverse a m < m /\
  (a * modInverse a m) mod m = 1 mod m /\
  (forall s', 0 <= s' < m -> (a * s') mod m = 1 mod m -> s' = modInverse a m).
Proof.
  intros Hm Hgcd.
  pose proof (modInverse_range a m Hm) as Hrange.
  pose proof (modInverse_inverse a m Hm Hgcd) as Hinv.
  repeat split; try tauto.
  intros s' Hs' Es'.
  exact (inverse_unique a m s' (modInverse a m) Hm Hs' Hrange Es' Hinv).
Qed.

Lemma modInverse_unique_inverse_witness :
  0 <= modInverse 4 13 < 13 /\
  (4 * modInverse 4 13) mod 13 = 1 mod 13 /\
  (forall s', 0 <= s' < 13 -> (4 * s') mod 13 = 1 mod 13 ->
              s' = modInverse 4 13).
Proof. apply (modInverse_unique_inverse 4 13); [lia | reflexivity]. Defined.

(** For [a = 4], [m = 13] the loop ends with the negative coefficient [-3],
    which [modInverse] returns as [10]. *)
Example modInverse_negative_coefficient :
  modInverse_loop 4 13 1 0 0 1 = (1, -3, 1) /\ modInverse 4 13 = 10.
Proof. split; reflexivity. Qed.

(** *** The Hamilton product *)

Lemma given_nonzero (m : Z) : m <> 0 -> given (Some m) = Some m.
Proof.
  intros Hm. unfold given.
  destruct (Z.eqb_spec m 0); [contradiction | reflexivity].
Qed.

Lemma mod_small_id (n m : Z) : 0 <= n < m -> mod_ n m = n.
Proof.
  intros Hn. rewrite mod_modulo by lia. apply Z.mod_small; assumption.
Qed.




(** *** [invQ] *)

Lemma invQ_zero_norm (q : Quaternion) (modulus : option Z) :
  normSqQ q modulus = 0 -> invQ q modulus = Null.
Proof. intros Hn. unfold invQ. rewrite Hn. reflexivity. Qed.

(** With a modulus, a zero norm is the only case in which [invQ] returns
    [null]: the gcd of the norm and the modulus plays no part. *)
Lemma invQ_null_iff_zero_norm (q : Quaternion) (m : Z) :
  m <> 0 -> (invQ q (Some m) = Null <-> normSqQ q (Some m) = 0).
Proof.
  intros Hm. split; [| apply invQ_zero_norm].
  unfold invQ.
  destruct (Z.eqb_spec (normSqQ q (Some m)) 0) as [E | _]; [intros _; exact E |].
  rewrite given_nonzero by assumption. discriminate.
Qed.

(** A residue [n] with [0 < n < m] is coprime with a prime [m]. *)
Lemma prime_residue_coprime (n m : Z) :
  prime m -> 0 < n < m -> Z.gcd n m = 1.
Proof.
  intros Hp Hn.
  destruct Hp as [_ Hrel].
  destruct (Hrel n ltac:(lia)) as [_ _ Hgreatest].
  pose proof (Hgreatest (Z.gcd n m) (Z.gcd_divide_l n m) (Z.gcd_divide_r n m))
    as Hdiv.
  pose proof (Z.gcd_nonneg n m) as Hnonneg.
  apply Z.divide_1_r_nonneg; assumption.
Qed.

(** Congruence modulo [m] is compatible with [+], [-], [*] and negation; the
    instances of the standard library are local to its section. *)
#[local] Existing Instances eqm_setoid Zplus_eqm Zminus_eqm Zmult_eqm Zopp_eqm.

(** Congruence modulo [m] of the value [mod] returns. *)
Lemma mod_eqm (n m : Z) : 0 < m -> eqm m (mod_ n m) n.
Proof.
  intros Hm. rewrite mod_modulo by assumption. apply Zmod_eqm.
Qed.

(** To show [mod (e, m) = c] for a residue [c], show [e] congruent to [c]. *)
Lemma mod_of_eqm (e c m : Z) : 0 <= c < m -> eqm m e c -> mod_ e m = c.
Proof.
  intros Hc He. rewrite mod_modulo by lia.
  unfold eqm in He. rewrite He. apply Z.mod_small; assumption.
Qed.

Section Inverse.

Variables (q : Quaternion) (m : Z).
Hypothesis m_prime : prime m.
Hypothesis norm_nonzero : normSqQ q (Some m) <> 0.

Local Abbreviation val := (w q * w q + x q * x q + y q * y q + z q * z q).
Local Abbreviation nSqInv := (modInverse (normSqQ q (Some m)) m).

Lemma m_gt_1 : 1 < m.
Proof. destruct m_prime; assumption. Qed.

Lemma normSqQ_reduced : normSqQ q (Some m) = mod_ val m.
Proof.
  pose proof m_gt_1.
  unfold normSqQ. rewrite given_nonzero by lia. reflexivity.
Qed.

Lemma nSqInv_inverts_val : eqm m (val * nSqInv) 1.
Proof.
  pose proof m_gt_1.
  assert (Hrange : 0 < normSqQ q (Some m) < m).
  { pose proof norm_nonzero as Hn. rewrite normSqQ_reduced in *.
    pose proof (mod_range val m). lia. }
  pose proof (modInverse_inverse _ m ltac:(lia)
                (prime_residue_coprime _ m m_prime Hrange)) as Hinv.
  rewrite normSqQ_reduced in Hinv at 1.
  unfold eqm. rewrite <- Hinv.
  rewrite mod_modulo by lia.
  now rewrite Z.mul_mod_idemp_l by lia.
Qed.

Lemma invQ_value :
  invQ q (Some m)
  = Inverse {| w := mod_ (mod_ (w q) m * nSqInv) m;
               x := mod_ (mod_ (- x q) m * nSqInv) m;
               y := mod_ (mod_ (- y q) m * nSqInv) m;
               z := mod_ (mod_ (- z q) m * nSqInv) m |}.
Proof.
  pose proof m_gt_1.
  unfold invQ, conjugateQ.
  destruct (Z.eqb_spec (normSqQ q (Some m)) 0) as [E | _];
    [contradiction |].
  rewrite given_nonzero by lia. reflexivity.
Qed.

Lemma strip_mod (n : Z) : eqm m (mod_ n m) n.
Proof. pose proof m_gt_1. apply mod_eqm. lia. Qed.

Local Abbreviation qInv :=
  {| w := mod_ (mod_ (w q) m * nSqInv) m;
     x := mod_ (mod_ (- x q) m * nSqInv) m;
     y := mod_ (mod_ (- y q) m * nSqInv) m;
     z := mod_ (mod_ (- z q) m * nSqInv) m |}.

(** Strips the reductions from a congruence goal, then closes it either as a
    polynomial identity or as a multiple of [val * nSqInv]. *)
Local Ltac congruence_mod :=
  apply mod_of_eqm; [pose proof m_gt_1; lia |];
  rewrite !strip_mod;
  first
    [ match goal with
      | |- eqm _ ?e 0 => replace e with 0 by ring; reflexivity
      end
    | match goal with
      | |- eqm _ ?e 1 =>
          replace e with (val * nSqInv) by ring;
          exact nSqInv_inverts_val
      end ].

Lemma mulQ_inverse_r : mulQ q qInv (Some m) = mkQ 1 0 0 0.
Proof.
  pose proof m_gt_1.
  unfold mulQ. rewrite given_nonzero by lia.
  cbn [w x y z].
  f_equal; congruence_mod.
Qed.

Lemma mulQ_inverse_l : mulQ qInv q (Some m) = mkQ 1 0 0 0.
Proof.
  pose proof m_gt_1.
  unfold mulQ. rewrite given_nonzero by lia.
  cbn [w x y z].
  f_equal; congruence_mod.
Qed.

End Inverse.

Lemma gcd_1_rel_prime (a b : Z) : Z.gcd a b = 1 -> rel_prime a b.
Proof.
  intros Hgcd. constructor.
  - apply Z.divide_1_l.
  - apply Z.divide_1_l.
  - intros d Ha Hb. rewrite <- Hgcd. apply Z.gcd_greatest; assumption.
Qed.

Lemma prime_13 : prime 13.
Proof.
  constructor; [lia |].
  intros n Hn. apply gcd_1_rel_prime.
  assert (Hcases : n = 1 \/ n = 2 \/ n = 3 \/ n = 4 \/ n = 5 \/ n = 6 \/
                   n = 7 \/ n = 8 \/ n = 9 \/ n = 10 \/ n = 11 \/ n = 12)
    by lia.
  repeat (destruct Hcases as [-> | Hcases]; [reflexivity |]).
  subst n. reflexivity.
Qed.

(** On exact integers.  For every quaternion [q] and prime modulus [m] with
    [normSqQ q m <> 0], [invQ q m] is a quaternion (not [null]) and its
    product with [q], on either side, reduced modulo [m], is [(1, 0, 0, 0)]. *)
Theorem invQ_is_two_sided_inverse (q : Quaternion) (m : Z) :
  prime m ->
  normSqQ q (Some m) <> 0 ->
  exists qInv,
    invQ q (Some m) = Inverse qInv /\
    mulQ q qInv (Some m) = mkQ 1 0 0 0 /\
    mulQ qInv q (Some m) = mkQ 1 0 0 0.
Proof.
  intros Hp Hn.
  eexists. split; [apply invQ_value; assumption | split].
  - apply mulQ_inverse_r; assumption.
  - apply mulQ_inverse_l; assumption.
Qed.

Lemma invQ_is_two_sided_inverse_witness :
  exists qInv,
    invQ (mkQ 2 1 0 1) (Some 13) = Inverse qInv /\
    mulQ (mkQ 2 1 0 1) qInv (Some 13) = mkQ 1 0 0 0 /\
    mulQ qInv (mkQ 2 1 0 1) (Some 13) = mkQ 1 0 0 0.
Proof.
  apply (invQ_is_two_sided_inverse (mkQ 2 1 0 1) 13).
  - exact prime_13.
  - vm_compute. discriminate.
Defined.

(** C4, at [q = (1, 1, 0, 0)] and [m = 4].  The squared norm is [2], which is
    not zero and shares the factor [2] with the modulus, so [q] has no
    inverse; [invQ] nevertheless returns the quaternion [(1, 3, 0, 0)], whose
    product with [q] is [(2, 0, 0, 0)] and not [(1, 0, 0, 0)]. *)
Theorem invQ_not_null_on_shared_factor :
  normSqQ (mkQ 1 1 0 0) (Some 4) = 2 /\
  Z.gcd 2 4 = 2 /\
  invQ (mkQ 1 1 0 0) (Some 4) = Inverse (mkQ 1 3 0 0) /\
  mulQ (mkQ 1 1 0 0) (mkQ 1 3 0 0) (Some 4) = mkQ 2 0 0 0.
Proof. repeat split; reflexivity. Qed.

End QMathFacts.

(* ===================================================================== *)
(** ** Properties of the protocol handlers                                *)
(* ===================================================================== *)

Module SimulationLabFacts.

Import QMath SimulationLab.
Local Open Scope string_scope.

(** *** The resampling loop *)

(** The loop touches nothing but the count of random draws. *)
Lemma resample_frame (env : Env) (fuel : nat) (m : Z) :
  forall sec world sec' world',
    resample env fuel m sec world = Done sec' world' ->
    state world' = state world /\ log world' = log world /\
    ticks world' = ticks world /\
    isNull (invQ sec' (Some m)) = false.
Proof.
  induction fuel as [| fuel IH]; intros sec world sec' world' Hrun;
    cbn [resample] in Hrun;
    destruct (isNull (invQ sec (Some m))) eqn:Hnull.
  - discriminate Hrun.
  - inversion Hrun; subst. auto.
  - unfold bind, random in Hrun.
    apply IH in Hrun. cbn in Hrun. exact Hrun.
  - inversion Hrun; subst. auto.
Qed.

(** With an acceptable sample [k] draws ahead, [k] units of fuel suffice. *)
Lemma resample_terminates (env : Env) (m : Z) (k : nat) :
  forall fuel sec world,
    (k <= fuel)%nat ->
    isNull (invQ (randomQuaternion (floorRandom env) (draws world + 4 * k) m)
                 (Some m)) = false ->
    exists sec' world', resample env (S fuel) m sec world = Done sec' world'.
Proof.
  induction k as [| k IH]; intros fuel sec world Hfuel Hgood.
  - cbn [resample].
    destruct (isNull (invQ sec (Some m))); [| eexists; eexists; reflexivity].
    unfold bind, random.
    replace (draws world + 4 * 0)%nat with (draws world) in Hgood by lia.
    destruct fuel; cbn [resample]; rewrite Hgood; eexists; eexists; reflexivity.
  - cbn [resample].
    destruct (isNull (invQ sec (Some m))); [| eexists; eexists; reflexivity].
    destruct fuel as [| fuel]; [lia |].
    unfold bind at 1. unfold random at 1.
    apply IH; [lia |]. cbn [draws].
    replace (draws world + 4 + 4 * k)%nat with (draws world + 4 * S k)%nat
      by lia.
    exact Hgood.
Qed.

(** Fuel beyond what the loop needs does not change what it returns. *)
Lemma resample_fuel_mono (env : Env) (m : Z) (fuel : nat) :
  forall fuel' sec world sec' world',
    (fuel <= fuel')%nat ->
    resample env fuel m sec world = Done sec' world' ->
    resample env fuel' m sec world = Done sec' world'.
Proof.
  induction fuel as [| fuel IH]; intros fuel' sec world sec' world' Hle Hrun.
  - cbn [resample] in Hrun.
    destruct (isNull (invQ sec (Some m))) eqn:Hnull; [discriminate Hrun |].
    destruct fuel'; cbn [resample]; rewrite Hnull; exact Hrun.
  - destruct fuel' as [| fuel']; [lia |].
    cbn [resample] in *.
    destruct (isNull (invQ sec (Some m))); [| exact Hrun].
    unfold bind, random in *.
    apply IH; [lia | exact Hrun].
Qed.

(** *** [generateKeys] *)

Lemma generateKeys_derivedAbsent (env : Env) (fuel : nat) (world world' : World) :
  generateKeys env fuel world = Done tt world' ->
  derivedAbsent (state world') /\ modulus (state world') = modulus (state world).
Proof.
  unfold generateKeys, bind, getState, random, setState, addLog.
  intros Hrun.
  destruct (resample env fuel _ _ _) as [aliceSec world1 | |] eqn:Halice;
    try discriminate Hrun.
  destruct (resample env fuel _ _ _) as [bobSec world2 | |] eqn:Hbob in Hrun;
    try discriminate Hrun.
  inversion Hrun; subst world'.
  apply resample_frame in Halice, Hbob.
  destruct Halice as (Hst1 & _), Hbob as (Hst2 & _).
  cbn in Hst1, Hst2 |- *.
  unfold derivedAbsent; cbn. rewrite Hst2, Hst1. auto.
Qed.

Lemma generateKeys_log (env : Env) (fuel : nat) (world world' : World) :
  generateKeys env fuel world = Done tt world' ->
  log world'
  = ("[" ++ toLocaleTimeString env (ticks world) ++ "] "
     ++ "Generated new parameters and private keys.") :: log world.
Proof.
  unfold generateKeys, bind, getState, random, setState, addLog.
  intros Hrun.
  destruct (resample env fuel _ _ _) as [aliceSec world1 | |] eqn:Halice;
    try discriminate Hrun.
  destruct (resample env fuel _ _ _) as [bobSec world2 | |] eqn:Hbob in Hrun;
    try discriminate Hrun.
  inversion Hrun; subst world'.
  apply resample_frame in Halice, Hbob.
  destruct Halice as (_ & Hlog1 & Htick1 & _), Hbob as (_ & Hlog2 & Htick2 & _).
  cbn in Hlog1, Htick1, Hlog2, Htick2 |- *.
  rewrite Hlog2, Hlog1, Htick2, Htick1. reflexivity.
Qed.

Lemma generateKeys_terminates (env : Env) (world : World) :
  eventuallyInvertible env (modulus (state world)) ->
  exists fuel world', generateKeys env fuel world = Done tt world'.
Proof.
  intros Hev.
  set (m := modulus (state world)) in *.
  set (world0 := {| state := state world; log := log world;
                    draws := (draws world + 4 + 4)%nat;
                    ticks := ticks world |}).
  set (aliceSec0 := randomQuaternion (floorRandom env) (draws world + 4) m).
  destruct (Hev (draws world0)) as [k1 Hk1].
  destruct (resample_terminates env m k1 k1 aliceSec0 world0 (le_n _) Hk1)
    as (aliceSec & world1 & Halice).
  set (bobSec0 := randomQuaternion (floorRandom env) (draws world1) m).
  set (world1' := {| state := state world1; log := log world1;
                     draws := (draws world1 + 4)%nat;
                     ticks := ticks world1 |}).
  destruct (Hev (draws world1')) as [k2 Hk2].
  destruct (resample_terminates env m k2 (Nat.max k1 k2) bobSec0 world1'
              (Nat.le_max_r _ _) Hk2)
    as (bobSec & world2 & Hbob).
  exists (S (Nat.max k1 k2)).
  apply (resample_fuel_mono env m (S k1) (S (Nat.max k1 k2))) in Halice;
    [| pose proof (Nat.le_max_l k1 k2); lia].
  unfold generateKeys, bind, getState, random, setState, addLog.
  fold m. cbn [state log draws ticks].
  fold aliceSec0. fold world0. rewrite Halice.
  fold bobSec0. fold world1'. rewrite Hbob.
  eexists. reflexivity.
Qed.

(** C9.  Whatever the state before the call (any phase, any field values),
    every run of [generateKeys] that returns leaves [alicePublic],
    [bobPublic], [sharedSecretA] and [sharedSecretB] absent; and it does
    return as soon as the random sequence keeps offering invertible samples. *)
Theorem generateKeys_leaves_derived_absent (env : Env) (world : World) :
  (forall fuel world',
      generateKeys env fuel world = Done tt world' ->
      derivedAbsent (state world')) /\
  (eventuallyInvertible env (modulus (state world)) ->
   exists fuel world',
     generateKeys env fuel world = Done tt world' /\
     derivedAbsent (state world')).
Proof.
  split.
  - intros fuel world' Hrun.
    exact (proj1 (generateKeys_derivedAbsent env fuel world world' Hrun)).
  - intros Hev.
    destruct (generateKeys_terminates env world Hev) as (fuel & world' & Hrun).
    exists fuel, world'. split; [exact Hrun |].
    exact (proj1 (generateKeys_derivedAbsent env fuel world world' Hrun)).
Qed.

Lemma generateKeys_leaves_derived_absent_witness :
  exists fuel world',
    generateKeys constantEnv fuel derivedWorld = Done tt world' /\
    derivedAbsent (state world').
Proof.
  apply (proj2 (generateKeys_leaves_derived_absent constantEnv derivedWorld)).
  intros d. exists 0%nat. reflexivity.
Defined.

(** *** [performExchange] *)

(** C5.  When [invQ] returns an inverse for both secrets, [performExchange]
    returns and stores [alicePublic = mulQ (mulQ aliceSecret baseP m)
    aliceInv m] and [bobPublic = mulQ (mulQ bobSecret baseP m) bobInv m],
    the conjugates of the base by each secret; the other six fields keep
    their values. *)
Theorem performExchange_stores_conjugates
    (env : Env) (fuel : nat) (world : World) (aliceInv bobInv : Quaternion) :
  let st := state world in
  let m := Some (modulus st) in
  invQ (aliceSecret st) m = Inverse aliceInv ->
  invQ (bobSecret st) m = Inverse bobInv ->
  exists world',
    performExchange env fuel world = Done tt world' /\
    alicePublic (state world')
    = Some (mulQ (mulQ (aliceSecret st) (baseP st) m) aliceInv m) /\
    bobPublic (state world')
    = Some (mulQ (mulQ (bobSecret st) (baseP st) m) bobInv m) /\
    modulus (state world') = modulus st /\
    baseP (state world') = baseP st /\
    aliceSecret (state world') = aliceSecret st /\
    bobSecret (state world') = bobSecret st /\
    sharedSecretA (state world') = sharedSecretA st /\
    sharedSecretB (state world') = sharedSecretB st.
Proof.
  intros st m Ha Hb. subst st m.
  unfold performExchange, bind, getState.
  rewrite Ha, Hb. cbn [isNull orb].
  unfold setState, addLog.
  eexists. split; [reflexivity |].
  cbn. repeat split; reflexivity.
Qed.

Lemma performExchange_stores_conjugates_witness :
  exists world',
    performExchange constantEnv 0 initialWorld = Done tt world' /\
    alicePublic (state world') = Some (mkQ 1 5 4 1) /\
    bobPublic (state world') = Some (mkQ 1 4 10 11).
Proof.
  destruct (performExchange_stores_conjugates constantEnv 0 initialWorld
              (mkQ 9 2 0 2) (mkQ 6 8 7 0))
    as (world' & Hrun & Ha & Hb & _); [reflexivity | reflexivity |].
  exists world'. split; [exact Hrun | split].
  - rewrite Ha. reflexivity.
  - rewrite Hb. reflexivity.
Defined.

(** The guard of [performExchange] is taken exactly when [invQ] returns
    [null] for one of the secrets. *)
Lemma null_guard (a b : InvResult) :
  a = Null \/ b = Null -> isNull a || isNull b = true.
Proof.
  intros [-> | ->]; [reflexivity | apply orb_true_r].
Qed.

Lemma performExchange_on_null (env : Env) (fuel : nat) (world : World) :
  invQ (aliceSecret (state world)) (Some (modulus (state world))) = Null \/
  invQ (bobSecret (state world)) (Some (modulus (state world))) = Null ->
  performExchange env fuel world
  = (addLog env "Error: Generated non-invertible secrets. Regenerating..." ;;;
     generateKeys env fuel) world.
Proof.
  intros Hnull. unfold performExchange at 1. unfold bind at 1, getState.
  rewrite (null_guard _ _ Hnull). reflexivity.
Qed.

(** C6, as the handler behaves.  For a secret whose [invQ] is [null],
    [performExchange] does not fail: it is the run of [addLog] with the
    message "Error: Generated non-invertible secrets. Regenerating..."
    followed by [generateKeys].  Whenever it returns, the four derived fields
    are absent (no public value, default or other, was stored) and the log
    has gained that message and the one of [generateKeys]; and it returns
    as soon as the random sequence keeps offering invertible samples. *)
Theorem performExchange_regenerates_on_null (env : Env) (world : World) :
  let st := state world in
  invQ (aliceSecret st) (Some (modulus st)) = Null \/
  invQ (bobSecret st) (Some (modulus st)) = Null ->
  (forall fuel,
      performExchange env fuel world
      = (addLog env "Error: Generated non-invertible secrets. Regenerating..."
         ;;; generateKeys env fuel) world) /\
  (forall fuel world',
      performExchange env fuel world = Done tt world' ->
      derivedAbsent (state world') /\
      log world'
      = ("[" ++ toLocaleTimeString env (S (ticks world)) ++ "] "
         ++ "Generated new parameters and private keys.")
        :: ("[" ++ toLocaleTimeString env (ticks world) ++ "] "
            ++ "Error: Generated non-invertible secrets. Regenerating...")
        :: log world) /\
  (eventuallyInvertible env (modulus st) ->
   exists fuel, returnsNormally (performExchange env fuel world)).
Proof.
  intros st Hnull. subst st.
  split; [| split].
  - intros fuel. apply performExchange_on_null; exact Hnull.
  - intros fuel world' Hrun.
    rewrite (performExchange_on_null env fuel world Hnull) in Hrun.
    unfold bind at 1 in Hrun. unfold addLog at 1 in Hrun.
    split.
    + exact (proj1 (generateKeys_derivedAbsent _ _ _ _ Hrun)).
    + rewrite (generateKeys_log _ _ _ _ Hrun). reflexivity.
  - intros Hev.
    set (logged := {| state := state world;
                      log := ("[" ++ toLocaleTimeString env (ticks world) ++ "] "
                              ++ "Error: Generated non-invertible secrets. Regenerating...")
                             :: log world;
                      draws := draws world;
                      ticks := S (ticks world) |}).
    destruct (generateKeys_terminates env logged Hev) as (fuel & world' & Hrun).
    exists fuel, tt, world'.
    rewrite (performExchange_on_null env fuel world Hnull).
    exact Hrun.
Qed.

Lemma performExchange_regenerates_on_null_witness :
  exists fuel, returnsNormally (performExchange constantEnv fuel zeroSecretWorld).
Proof.
  apply (performExchange_regenerates_on_null constantEnv zeroSecretWorld).
  - left. reflexivity.
  - intros d. exists 0%nat. reflexivity.
Defined.

(** C6, as stated, at the session [zeroSecretWorld], whose first secret is
    the zero quaternion.  [invQ] returns [null] for it, and yet
    [performExchange] returns normally, exactly as it does on success: the
    caller receives no failure and no [NonInvertibleSecret] condition.  The
    base and both secrets have been replaced by fresh samples and the error
    is only a line of the log. *)
Lemma performExchange_zero_secret_returns :
  invQ (aliceSecret (state zeroSecretWorld))
       (Some (modulus (state zeroSecretWorld))) = Null /\
  returnsNormally (performExchange constantEnv 0 zeroSecretWorld) /\
  performExchange constantEnv 0 zeroSecretWorld
  = Done tt
      {| state :=
           {| modulus := 13;
              baseP := mkQ 1 1 1 1;
              aliceSecret := mkQ 1 1 1 1;
              bobSecret := mkQ 1 1 1 1;
              alicePublic := None;
              bobPublic := None;
              sharedSecretA := None;
              sharedSecretB := None |};
         log :=
           [ "[12:00:00] Generated new parameters and private keys.";
             "[12:00:00] Error: Generated non-invertible secrets. Regenerating..." ];
         draws := 12;
         ticks := 2 |}.
Proof.
  split; [reflexivity | split].
  - exists tt. eexists. vm_compute. reflexivity.
  - vm_compute. reflexivity.
Qed.

(** *** [computeSharedSecret] *)

(** C10.  When [alicePublic] or [bobPublic] is absent, or [invQ] returns
    [null] for either secret, [computeSharedSecret] returns without an error
    and leaves everything as it was: no field of the state is written (so
    absent shared values stay absent) and nothing is logged. *)
Theorem computeSharedSecret_silent_noop (env : Env) (world : World) :
  let st := state world in
  alicePublic st = None \/
  bobPublic st = None \/
  invQ (aliceSecret st) (Some (modulus st)) = Null \/
  invQ (bobSecret st) (Some (modulus st)) = Null ->
  computeSharedSecret env world = Done tt world.
Proof.
  intros st Hpre. subst st.
  unfold computeSharedSecret, bind, getState.
  destruct (alicePublic (state world)) as [alicePub |]; [| reflexivity].
  destruct (bobPublic (state world)) as [bobPub |]; [| reflexivity].
  destruct Hpre as [Hpre | [Hpre | Hnull]]; try discriminate Hpre.
  rewrite (null_guard _ _ Hnull). reflexivity.
Qed.

Lemma computeSharedSecret_silent_noop_witness :
  computeSharedSecret constantEnv initialWorld = Done tt initialWorld /\
  computeSharedSecret constantEnv
    {| state :=
         {| modulus := 13;
            baseP := mkQ 1 2 3 4;
            aliceSecret := mkQ 2 1 0 1;
            bobSecret := mkQ 0 0 0 0;
            alicePublic := Some (mkQ 1 5 4 1);
            bobPublic := Some (mkQ 1 4 10 11);
            sharedSecretA := None;
            sharedSecretB := None |};
       log := []; draws := 0; ticks := 0 |}
  = Done tt
      {| state :=
           {| modulus := 13;
              baseP := mkQ 1 2 3 4;
              aliceSecret := mkQ 2 1 0 1;
              bobSecret := mkQ 0 0 0 0;
              alicePublic := Some (mkQ 1 5 4 1);
              bobPublic := Some (mkQ 1 4 10 11);
              sharedSecretA := None;
              sharedSecretB := None |};
         log := []; draws := 0; ticks := 0 |}.
Proof.
  split.
  - apply (computeSharedSecret_silent_noop constantEnv initialWorld).
    left. reflexivity.
  - apply (computeSharedSecret_silent_noop constantEnv).
    right. right. right. reflexivity.
Defined.

(** *** The toy session *)

(** C1.  With modulus [13], base [(1,2,3,4)], [aliceSecret = (2,1,0,1)] and
    [bobSecret = (1,3,1,0)]: the public values are
    [A G A^-1 = (1,5,4,1)] and [B G B^-1 = (1,4,10,11)], the derived values
    are [sharedA = mulQ (mulQ A publicB m) (invQ A m) m = (1,4,3,11)] and
    [sharedB = mulQ (mulQ B publicA m) (invQ B m) m = (1,10,2,4)], and
    [sharedA <> sharedB]: the componentwise comparison fails.  These are the
    values the exchange phase and then the derivation phase store, starting
    from [INITIAL_STATE]. *)
Theorem toy_session_shared_values_differ (env : Env) (fuel : nat) :
  let m := Some 13 in
  let G := mkQ 1 2 3 4 in
  let A := mkQ 2 1 0 1 in
  let B := mkQ 1 3 1 0 in
  exists aInv bInv,
    invQ A m = Inverse aInv /\
    invQ B m = Inverse bInv /\
    let publicA := mulQ (mulQ A G m) aInv m in
    let publicB := mulQ (mulQ B G m) bInv m in
    let sharedA := mulQ (mulQ A publicB m) aInv m in
    let sharedB := mulQ (mulQ B publicA m) bInv m in
    publicA = mkQ 1 5 4 1 /\
    publicB = mkQ 1 4 10 11 /\
    sharedA = mkQ 1 4 3 11 /\
    sharedB = mkQ 1 10 2 4 /\
    sharedA <> sharedB /\
    eqQ sharedA sharedB = false /\
    exists world',
      (performExchange env fuel ;;; computeSharedSecret env) initialWorld
      = Done tt world' /\
      alicePublic (state world') = Some publicA /\
      bobPublic (state world') = Some publicB /\
      sharedSecretA (state world') = Some sharedA /\
      sharedSecretB (state world') = Some sharedB /\
      secretsMatch (state world') = false.
Proof.
  intros m G A B.
  exists (mkQ 9 2 0 2), (mkQ 6 8 7 0).
  split; [reflexivity | split; [reflexivity |]].
  intros publicA publicB sharedA sharedB.
  repeat (split; [reflexivity |]).
  split; [discriminate |].
  split; [reflexivity |].
  eexists. split; [vm_compute; reflexivity |].
  repeat split; reflexivity.
Qed.

End SimulationLabFacts.

(* ===================================================================== *)
(** ** The ring of quaternions modulo [m]                                 *)
(* ===================================================================== *)

Module QMathAlgebra.

Import QMath QMathFacts.

#[local] Existing Instances eqm_setoid Zplus_eqm Zminus_eqm Zmult_eqm Zopp_eqm.

(** *** [mod] for a modulus of either sign *)

Lemma rem_congr_any (n m : Z) : (Z.rem n m) mod m = n mod m.
Proof.
  rewrite (Z.quot_rem' n m) at 2.
  rewrite Z.add_comm, Z.mul_comm.
  now rewrite Z_mod_plus_full.
Qed.

Lemma rem_mod_nonpos (a b : Z) :
  0 <= a -> 0 < b -> Z.rem (- a) (- b) = (- a) mod (- b).
Proof.
  intros Ha Hb.
  rewrite Z.rem_opp_opp by lia.
  rewrite Z.mod_opp_opp by lia.
  rewrite Z.rem_mod_nonneg by lia.
  reflexivity.
Qed.

Lemma mod_modulo_neg (n m : Z) : m < 0 -> mod_ n m = n mod m.
Proof.
  intros Hm. unfold mod_.
  assert (Hb : m < Z.rem n m < - m).
  { assert (Z.abs (Z.rem n m) < Z.abs m) by (apply Z.rem_bound_abs; lia).
    lia. }
  set (r := Z.rem n m) in *.
  rewrite <- (rem_congr_any n m). fold r.
  replace (r mod m) with ((r + m) mod m)
    by (rewrite <- (Z_mod_plus_full r 1 m); f_equal; ring).
  pose proof (rem_mod_nonpos (- (r + m)) (- m) ltac:(lia) ltac:(lia)) as E.
  rewrite !Z.opp_involutive in E. exact E.
Qed.

Lemma mod_modulo_any (n m : Z) : m <> 0 -> mod_ n m = n mod m.
Proof.
  intros Hm. destruct (Z_lt_ge_dec m 0) as [Hneg | Hpos].
  - apply mod_modulo_neg; assumption.
  - apply mod_modulo; lia.
Qed.

(** On exact integers, [mod] follows the sign of the modulus: for a negative [m] the result
    is in [(m, 0]] and congruent to [n]; for instance [mod (5, -3) = -1]. *)
Theorem mod_negative_modulus (n m : Z) :
  m < 0 ->
  m < mod_ n m <= 0 /\ (exists k, mod_ n m = n + k * m).
Proof.
  intros Hm. rewrite mod_modulo_neg by assumption. split.
  - apply Z.mod_neg_bound; assumption.
  - exists (- (n / m)). rewrite Z.mod_eq by lia. ring.
Qed.

Lemma mod_negative_modulus_witness :
  -3 < mod_ 5 (-3) <= 0 /\ (exists k, mod_ 5 (-3) = 5 + k * -3).
Proof. apply (mod_negative_modulus 5 (-3)). lia. Defined.

(** *** Reasoning modulo [m] on components *)

Lemma given_some (modulus : option Z) (m : Z) :
  given modulus = Some m -> m <> 0.
Proof.
  unfold given. destruct modulus as [m' |]; [| discriminate].
  destruct (Z.eqb_spec m' 0); [discriminate |].
  intros E; inversion E; subst; assumption.
Qed.

(** Two congruent values have the same [mod]. *)
Lemma mod_cong (a b m : Z) : m <> 0 -> eqm m a b -> mod_ a m = mod_ b m.
Proof.
  intros Hm Hab. rewrite !mod_modulo_any by assumption. exact Hab.
Qed.

Lemma mod_strip (m n : Z) : m <> 0 -> eqm m (mod_ n m) n.
Proof.
  intros Hm. rewrite mod_modulo_any by assumption. apply Zmod_eqm.
Qed.

(** Closes [mod_ e m = mod_ e' m] when [e] and [e'] agree as polynomials once
    the inner reductions are dropped. *)
Ltac mod_ring Hm :=
  apply mod_cong; [exact Hm |];
  rewrite ?mod_modulo_any by exact Hm;
  rewrite ?Zmod_eqm;
  unfold eqm; f_equal; ring.

(** Splits a law on [modulus] into its reduced and its plain case. *)
Ltac by_modulus modulus m Hm :=
  destruct (given modulus) as [m |] eqn:Hm;
  [apply given_some in Hm |]; cbn [w x y z].

(** *** Addition *)

(** On exact integers, [addQ] is commutative and associative, with or without a modulus. *)
Theorem addQ_comm_assoc (a b c : Quaternion) (modulus : option Z) :
  addQ a b modulus = addQ b a modulus /\
  addQ (addQ a b modulus) c modulus = addQ a (addQ b c modulus) modulus.
Proof.
  unfold addQ. by_modulus modulus m Hm.
  - split; f_equal; mod_ring Hm.
  - split; f_equal; ring.
Qed.

(** *** Multiplication *)

(** On exact integers, [mulQ] is associative, with or without a modulus: reducing the
    intermediate product does not change the result. *)
Theorem mulQ_assoc (a b c : Quaternion) (modulus : option Z) :
  mulQ (mulQ a b modulus) c modulus = mulQ a (mulQ b c modulus) modulus.
Proof.
  unfold mulQ. by_modulus modulus m Hm.
  - f_equal; mod_ring Hm.
  - f_equal; ring.
Qed.

(** On exact integers, [mulQ] distributes over [addQ] on both sides. *)
Theorem mulQ_addQ_distr (a b c : Quaternion) (modulus : option Z) :
  mulQ a (addQ b c modulus) modulus
  = addQ (mulQ a b modulus) (mulQ a c modulus) modulus /\
  mulQ (addQ a b modulus) c modulus
  = addQ (mulQ a c modulus) (mulQ b c modulus) modulus.
Proof.
  unfold mulQ, addQ. by_modulus modulus m Hm.
  - split; f_equal; mod_ring Hm.
  - split; f_equal; ring.
Qed.

Lemma mod_zero (m : Z) : m <> 0 -> mod_ 0 m = 0.
Proof. intros Hm. rewrite mod_modulo_any by assumption. apply Zmod_0_l. Qed.

(** Closes [mod_ e m = 0] when [e] vanishes as a polynomial once the inner
    reductions are dropped. *)
Ltac mod_ring_zero Hm :=
  rewrite <- (mod_zero _ Hm) at 1; mod_ring Hm.

(** On exact integers, [(1, 0, 0, 0)] is a unit on both sides for quaternions already
    reduced modulo a positive [m]. *)
Theorem mulQ_one (q : Quaternion) (m : Z) :
  0 < m -> inRange m q ->
  mulQ (mkQ 1 0 0 0) q (Some m) = q /\ mulQ q (mkQ 1 0 0 0) (Some m) = q.
Proof.
  intros Hm (Hw & Hx & Hy & Hz).
  unfold mulQ. rewrite given_nonzero by lia.
  destruct q as [qw qx qy qz]; cbn [w x y z] in *.
  split; f_equal;
    match goal with
    | |- mod_ ?e m = ?c => replace e with c by ring; apply mod_small_id; assumption
    end.
Qed.

Lemma mulQ_one_witness :
  mulQ (mkQ 1 0 0 0) (mkQ 2 1 0 12) (Some 13) = mkQ 2 1 0 12 /\
  mulQ (mkQ 2 1 0 12) (mkQ 1 0 0 0) (Some 13) = mkQ 2 1 0 12.
Proof.
  apply (mulQ_one (mkQ 2 1 0 12) 13); [lia |].
  unfold inRange; cbn. lia.
Defined.

(** *** Range *)

(** X6.  With a positive modulus every operation returns reduced values: the
    components of [addQ], [mulQ], [conjugateQ] and of the quaternion [invQ]
    returns are in [[0, m)], and so is [normSqQ]. *)
Theorem modular_results_inRange (a b : Quaternion) (m : Z) :
  0 < m ->
  inRange m (addQ a b (Some m)) /\
  inRange m (mulQ a b (Some m)) /\
  inRange m (conjugateQ a (Some m)) /\
  0 <= normSqQ a (Some m) < m /\
  (forall aInv, invQ a (Some m) = Inverse aInv -> inRange m aInv).
Proof.
  intros Hm.
  assert (Hnz : m <> 0) by lia.
  split; [| split; [| split; [| split]]].
  - unfold addQ, inRange. rewrite given_nonzero by assumption. cbn.
    repeat split; apply mod_range; assumption.
  - unfold mulQ, inRange. rewrite given_nonzero by assumption. cbn.
    repeat split; apply mod_range; assumption.
  - unfold conjugateQ, inRange. rewrite given_nonzero by assumption. cbn.
    repeat split; apply mod_range; assumption.
  - unfold normSqQ. rewrite given_nonzero by assumption.
    apply mod_range; assumption.
  - intros aInv. unfold invQ.
    destruct (normSqQ a (Some m) =? 0); [discriminate |].
    rewrite given_nonzero by assumption.
    intros E; inversion E; subst aInv. unfold inRange; cbn.
    repeat split; apply mod_range; assumption.
Qed.

Lemma modular_results_inRange_witness :
  inRange 13 (addQ (mkQ 7 8 9 10) (mkQ 11 12 13 14) (Some 13)) /\
  inRange 13 (mulQ (mkQ 7 8 9 10) (mkQ 11 12 13 14) (Some 13)) /\
  inRange 13 (conjugateQ (mkQ 7 8 9 10) (Some 13)) /\
  0 <= normSqQ (mkQ 7 8 9 10) (Some 13) < 13 /\
  (forall aInv, invQ (mkQ 7 8 9 10) (Some 13) = Inverse aInv -> inRange 13 aInv).
Proof. apply (modular_results_inRange (mkQ 7 8 9 10) (mkQ 11 12 13 14) 13). lia. Defined.

(** *** Conjugation and norm *)

(** On exact integers, conjugating twice gives back the quaternion, reduced when there is a
    modulus (that is, [addQ q 0]); and the conjugate of a product is the
    product of the conjugates in the opposite order. *)
Theorem conjugateQ_involutive_antimultiplicative
    (a b : Quaternion) (modulus : option Z) :
  conjugateQ (conjugateQ a modulus) modulus = addQ a (mkQ 0 0 0 0) modulus /\
  conjugateQ (mulQ a b modulus) modulus
  = mulQ (conjugateQ b modulus) (conjugateQ a modulus) modulus.
Proof.
  unfold conjugateQ, mulQ, addQ. by_modulus modulus m Hm.
  - split; f_equal; mod_ring Hm.
  - split; f_equal; ring.
Qed.

(** On exact integers, a quaternion times its conjugate, in either order, is its squared
    norm as a scalar: [(normSqQ q, 0, 0, 0)]. *)
Theorem mulQ_conjugateQ_norm (q : Quaternion) (modulus : option Z) :
  mulQ q (conjugateQ q modulus) modulus = mkQ (normSqQ q modulus) 0 0 0 /\
  mulQ (conjugateQ q modulus) q modulus = mkQ (normSqQ q modulus) 0 0 0.
Proof.
  unfold conjugateQ, mulQ, normSqQ. by_modulus modulus m Hm.
  - split; f_equal; first [mod_ring Hm | mod_ring_zero Hm].
  - split; f_equal; ring.
Qed.

Lemma normSqQ_mulQ_reduced (a b : Quaternion) (m : Z) :
  m <> 0 ->
  normSqQ (mulQ a b (Some m)) (Some m)
  = mod_ (normSqQ a (Some m) * normSqQ b (Some m)) m.
Proof.
  intros Hm. unfold mulQ, normSqQ. rewrite given_nonzero by assumption.
  cbn [w x y z]. mod_ring Hm.
Qed.

(** On exact integers, the squared norm is multiplicative: the norm of a product is the
    product of the norms, reduced when there is a modulus. *)
Theorem normSqQ_mulQ (a b : Quaternion) (modulus : option Z) :
  normSqQ (mulQ a b modulus) modulus
  = match given modulus with
    | Some m => mod_ (normSqQ a modulus * normSqQ b modulus) m
    | None => normSqQ a modulus * normSqQ b modulus
    end.
Proof.
  unfold mulQ, normSqQ. by_modulus modulus m Hm.
  - mod_ring Hm.
  - ring.
Qed.

(** *** [modInverse] and [invQ] beyond prime moduli *)

(** On exact integers: whatever the gcd, for a positive modulus [modInverse (a, m)] is a
    residue [s] with [a * s] congruent to [gcd (a, m)]: it is an inverse
    exactly when the gcd is [1], and otherwise still a number, never a
    failure. *)
Theorem modInverse_gcd (a m : Z) :
  0 < m ->
  0 <= modInverse a m < m /\
  (a * modInverse a m) mod m = Z.gcd a m mod m.
Proof.
  intros Hm. split; [apply modInverse_range; assumption |].
  unfold modInverse.
  destruct (modInverse_loop a m 1 0 0 1) as [[g u] v] eqn:Hloop.
  destruct (modInverse_loop_spec a m a m 1 0 0 1) with (g := g) (u := u) (v := v)
    as (Hbez & Habs & Hsign); [ring | ring | exact Hloop |].
  assert (Hg : g = Z.gcd a m) by lia.
  rewrite mod_modulo by assumption.
  rewrite Z.mul_mod_idemp_r by lia.
  rewrite <- Hg.
  replace (a * u) with (g + (- v) * m) by lia.
  apply Z_mod_plus_full.
Qed.

Lemma modInverse_gcd_witness :
  0 <= modInverse 6 4 < 4 /\ (6 * modInverse 6 4) mod 4 = Z.gcd 6 4 mod 4.
Proof. apply (modInverse_gcd 6 4). lia. Defined.

(** X11.  [invQ] returns [null] exactly when the squared norm it computes is
    zero, with or without a modulus; in particular the zero quaternion never
    has an inverse. *)
Theorem invQ_null_exactly_on_zero_norm (q : Quaternion) (modulus : option Z) :
  (invQ q modulus = Null <-> normSqQ q modulus = 0) /\
  invQ (mkQ 0 0 0 0) modulus = Null.
Proof.
  split.
  - split; [| apply invQ_zero_norm].
    unfold invQ.
    destruct (Z.eqb_spec (normSqQ q modulus) 0) as [E | _]; [intros _; exact E |].
    destruct (given modulus); discriminate.
  - apply invQ_zero_norm. unfold normSqQ.
    by_modulus modulus m Hm; [apply mod_zero; assumption | reflexivity].
Qed.

(** An inverse modulo [m] is coprime with [m]. *)
Lemma inverse_coprime (a s m : Z) :
  1 < m -> eqm m (a * s) 1 -> Z.gcd a m = 1.
Proof.
  intros Hm Hinv. unfold eqm in Hinv.
  rewrite (Z.mod_small 1 m) in Hinv by lia.
  pose proof (Z.div_mod (a * s) m ltac:(lia)) as Hdiv.
  rewrite Hinv in Hdiv.
  apply Z.divide_1_r_nonneg; [apply Z.gcd_nonneg |].
  replace 1 with (a * s - m * (a * s / m)) by lia.
  apply Z.divide_sub_r.
  - apply Z.divide_mul_l. apply Z.gcd_divide_l.
  - apply Z.divide_mul_l. apply Z.gcd_divide_r.
Qed.

Section ScaledConjugate.

Variables (q : Quaternion) (m nInv : Z).
Hypothesis m_gt_1 : 1 < m.

Local Abbreviation val := (w q * w q + x q * x q + y q * y q + z q * z q).

Hypothesis nInv_inverts : eqm m (val * nInv) 1.

(** The quaternion [invQ] builds from the scalar [nInv]. *)
Local Abbreviation scaled :=
  {| w := mod_ (mod_ (w q) m * nInv) m;
     x := mod_ (mod_ (- x q) m * nInv) m;
     y := mod_ (mod_ (- y q) m * nInv) m;
     z := mod_ (mod_ (- z q) m * nInv) m |}.

Lemma scaled_strip (n : Z) : eqm m (mod_ n m) n.
Proof. apply mod_strip. lia. Qed.

Local Ltac to_residue :=
  apply mod_of_eqm; [lia |];
  rewrite !scaled_strip.

Lemma scaled_conjugate_inverse :
  mulQ q scaled (Some m) = mkQ 1 0 0 0 /\
  mulQ scaled q (Some m) = mkQ 1 0 0 0.
Proof.
  unfold mulQ. rewrite given_nonzero by lia. cbn [w x y z].
  split; f_equal;
    first
      [ to_residue;
        match goal with
        | |- eqm _ ?e 1 => replace e with (val * nInv) by ring
        end; exact nInv_inverts
      | to_residue;
        match goal with
        | |- eqm _ ?e 0 => replace e with 0 by ring
        end; reflexivity ].
Qed.

(** Its squared norm is the scalar it was built from. *)
Lemma scaled_norm : normSqQ scaled (Some m) = mod_ nInv m.
Proof.
  unfold normSqQ. rewrite given_nonzero by lia. cbn [w x y z].
  apply mod_cong; [lia |].
  rewrite !scaled_strip.
  match goal with
  | |- eqm _ ?e _ => replace e with (nInv * (val * nInv)) by ring
  end.
  rewrite nInv_inverts. unfold eqm; f_equal; ring.
Qed.

(** Scaling its conjugate by a residue congruent to the norm of [q] gives
    [q] back, reduced. *)
Lemma scaled_back (n : Z) :
  eqm m n val ->
  {| w := mod_ (w (conjugateQ scaled (Some m)) * n) m;
     x := mod_ (x (conjugateQ scaled (Some m)) * n) m;
     y := mod_ (y (conjugateQ scaled (Some m)) * n) m;
     z := mod_ (z (conjugateQ scaled (Some m)) * n) m |}
  = mkQ (mod_ (w q) m) (mod_ (x q) m) (mod_ (y q) m) (mod_ (z q) m).
Proof.
  intros Hn.
  unfold conjugateQ. rewrite given_nonzero by lia. cbn [w x y z].
  f_equal; (apply mod_cong; [lia |]); rewrite !scaled_strip, Hn.
  - replace (w q * nInv * val) with (w q * (val * nInv)) by ring.
    rewrite nInv_inverts. unfold eqm; f_equal; ring.
  - replace (- (- x q * nInv) * val) with (x q * (val * nInv)) by ring.
    rewrite nInv_inverts. unfold eqm; f_equal; ring.
  - replace (- (- y q * nInv) * val) with (y q * (val * nInv)) by ring.
    rewrite nInv_inverts. unfold eqm; f_equal; ring.
  - replace (- (- z q * nInv) * val) with (z q * (val * nInv)) by ring.
    rewrite nInv_inverts. unfold eqm; f_equal; ring.
Qed.

(** Conjugating [g] by [q] keeps its scalar part. *)
Lemma conjugation_scalar (g : Quaternion) :
  w (mulQ (mulQ q g (Some m)) scaled (Some m)) = mod_ (w g) m.
Proof.
  unfold mulQ. rewrite given_nonzero by lia. cbn [w x y z].
  apply mod_cong; [lia |]. rewrite !scaled_strip.
  match goal with
  | |- eqm _ ?e _ => replace e with (w g * (val * nInv)) by ring
  end.
  rewrite nInv_inverts. unfold eqm; f_equal; ring.
Qed.

End ScaledConjugate.

(** What [invQ] computes on a non-zero norm. *)
Lemma invQ_unfold (q : Quaternion) (m : Z) :
  m <> 0 -> normSqQ q (Some m) <> 0 ->
  invQ q (Some m)
  = Inverse
      {| w := mod_ (mod_ (w q) m * modInverse (normSqQ q (Some m)) m) m;
         x := mod_ (mod_ (- x q) m * modInverse (normSqQ q (Some m)) m) m;
         y := mod_ (mod_ (- y q) m * modInverse (normSqQ q (Some m)) m) m;
         z := mod_ (mod_ (- z q) m * modInverse (normSqQ q (Some m)) m) m |}.
Proof.
  intros Hm Hn. unfold invQ, conjugateQ.
  destruct (Z.eqb_spec (normSqQ q (Some m)) 0); [contradiction |].
  rewrite given_nonzero by assumption. reflexivity.
Qed.

Lemma coprime_norm_nonzero (n m : Z) : 1 < m -> Z.gcd n m = 1 -> n <> 0.
Proof.
  intros Hm Hgcd ->. rewrite Z.gcd_0_l in Hgcd. lia.
Qed.

Lemma coprime_norm_inverse (q : Quaternion) (m : Z) :
  1 < m -> Z.gcd (normSqQ q (Some m)) m = 1 ->
  eqm m ((w q * w q + x q * x q + y q * y q + z q * z q)
         * modInverse (normSqQ q (Some m)) m) 1.
Proof.
  intros Hm Hgcd.
  pose proof (modInverse_inverse _ m ltac:(lia) Hgcd) as Hinv.
  change (eqm m (normSqQ q (Some m) * modInverse (normSqQ q (Some m)) m) 1)
    in Hinv.
  unfold normSqQ in Hinv at 1. rewrite given_nonzero in Hinv by lia.
  rewrite mod_strip in Hinv by lia. exact Hinv.
Qed.

(** On exact integers: for any modulus [m > 1], prime or not, a quaternion whose squared
    norm is coprime with [m] has the inverse [invQ] returns, on both sides. *)
Theorem invQ_coprime_inverse (q : Quaternion) (m : Z) :
  1 < m ->
  Z.gcd (normSqQ q (Some m)) m = 1 ->
  exists qInv,
    invQ q (Some m) = Inverse qInv /\
    mulQ q qInv (Some m) = mkQ 1 0 0 0 /\
    mulQ qInv q (Some m) = mkQ 1 0 0 0.
Proof.
  intros Hm Hgcd.
  eexists. split.
  - apply invQ_unfold; [lia | exact (coprime_norm_nonzero _ m Hm Hgcd)].
  - apply scaled_conjugate_inverse; [exact Hm |].
    apply coprime_norm_inverse; assumption.
Qed.

Lemma invQ_coprime_inverse_witness :
  exists qInv,
    invQ (mkQ 1 1 1 0) (Some 4) = Inverse qInv /\
    mulQ (mkQ 1 1 1 0) qInv (Some 4) = mkQ 1 0 0 0 /\
    mulQ qInv (mkQ 1 1 1 0) (Some 4) = mkQ 1 0 0 0.
Proof.
  apply (invQ_coprime_inverse (mkQ 1 1 1 0) 4); [lia | reflexivity].
Defined.

(** On exact integers, inverting twice gives the quaternion back, reduced modulo [m]. *)
Theorem invQ_involutive (q : Quaternion) (m : Z) :
  1 < m ->
  Z.gcd (normSqQ q (Some m)) m = 1 ->
  exists qInv,
    invQ q (Some m) = Inverse qInv /\
    invQ qInv (Some m)
    = Inverse (mkQ (mod_ (w q) m) (mod_ (x q) m) (mod_ (y q) m) (mod_ (z q) m)).
Proof.
  intros Hm Hgcd.
  set (n := normSqQ q (Some m)) in *.
  set (nInv := modInverse n m).
  pose proof (coprime_norm_inverse q m Hm Hgcd) as Hinv. fold n nInv in Hinv.
  pose proof (modInverse_range n m ltac:(lia)) as HnInv. fold nInv in HnInv.
  assert (Hn : 0 <= n < m)
    by (unfold n, normSqQ; rewrite given_nonzero by lia; apply mod_range; lia).
  assert (Hnval : eqm m n (w q * w q + x q * x q + y q * y q + z q * z q)).
  { unfold n, normSqQ. rewrite given_nonzero by lia. apply mod_strip; lia. }
  eexists. split.
  - apply invQ_unfold; [lia | exact (coprime_norm_nonzero _ m Hm Hgcd)].
  - fold n nInv.
    pose proof (scaled_norm q m nInv Hm Hinv) as Hnorm.
    rewrite (mod_small_id nInv m HnInv) in Hnorm.
    assert (HnInv0 : nInv <> 0).
    { intros E. rewrite E in Hinv. unfold eqm in Hinv.
      rewrite Z.mul_0_r, Zmod_0_l, Z.mod_small in Hinv by lia. discriminate. }
    assert (Hcop : Z.gcd nInv m = 1).
    { apply (inverse_coprime nInv n m Hm).
      rewrite Hnval, Z.mul_comm. exact Hinv. }
    assert (Hback : modInverse nInv m = n).
    { apply (inverse_unique nInv m); try lia.
      - apply modInverse_range; lia.
      - apply modInverse_inverse; [lia | exact Hcop].
      - change (eqm m (nInv * n) 1). rewrite Hnval, Z.mul_comm. exact Hinv. }
    rewrite invQ_unfold; [| lia | rewrite Hnorm; exact HnInv0].
    rewrite Hnorm, Hback.
    f_equal.
    pose proof (scaled_back q m nInv Hm Hinv n Hnval) as Hsb.
    unfold conjugateQ in Hsb. rewrite given_nonzero in Hsb by lia.
    exact Hsb.
Qed.

Lemma invQ_involutive_witness :
  exists qInv,
    invQ (mkQ 15 (-1) 0 1) (Some 13) = Inverse qInv /\
    invQ qInv (Some 13)
    = Inverse (mkQ (mod_ 15 13) (mod_ (-1) 13) (mod_ 0 13) (mod_ 1 13)).
Proof.
  apply (invQ_involutive (mkQ 15 (-1) 0 1) 13); [lia | reflexivity].
Defined.


Lemma conjugation_invariants (a g aInv : Quaternion) (m : Z) :
  1 < m ->
  Z.gcd (normSqQ a (Some m)) m = 1 ->
  invQ a (Some m) = Inverse aInv ->
  w (mulQ (mulQ a g (Some m)) aInv (Some m)) = mod_ (w g) m /\
  normSqQ (mulQ (mulQ a g (Some m)) aInv (Some m)) (Some m)
  = normSqQ g (Some m).
Proof.
  intros Hm Hgcd Hinv.
  pose proof (coprime_norm_inverse a m Hm Hgcd) as Hsc.
  rewrite invQ_unfold in Hinv
    by (try lia; exact (coprime_norm_nonzero _ m Hm Hgcd)).
  inversion Hinv as [E]; clear Hinv.
  split.
  - apply conjugation_scalar; assumption.
  - rewrite !normSqQ_mulQ_reduced by lia.
    rewrite (scaled_norm a m _ Hm Hsc).
    apply mod_of_eqm.
    + unfold normSqQ. rewrite given_nonzero by lia. apply mod_range; lia.
    + rewrite !mod_strip by lia.
      unfold normSqQ at 1. rewrite given_nonzero by lia.
      rewrite mod_strip by lia.
      set (n := normSqQ g (Some m)).
      set (v := w a * w a + x a * x a + y a * y a + z a * z a) in *.
      set (i := modInverse (normSqQ a (Some m)) m) in *.
      replace (v * n * i) with (n * (v * i)) by ring.
      rewrite Hsc. unfold eqm; f_equal; ring.
Qed.

(** On exact integers, conjugation by an invertible quaternion, [mulQ (mulQ a g m) aInv m]
    with [aInv] from [invQ], keeps the scalar part and the squared norm of
    [g]. *)
Theorem conjugation_keeps_scalar_and_norm (a g aInv : Quaternion) (m : Z) :
  1 < m ->
  Z.gcd (normSqQ a (Some m)) m = 1 ->
  invQ a (Some m) = Inverse aInv ->
  w (mulQ (mulQ a g (Some m)) aInv (Some m)) = mod_ (w g) m /\
  normSqQ (mulQ (mulQ a g (Some m)) aInv (Some m)) (Some m)
  = normSqQ g (Some m).
Proof. exact (conjugation_invariants a g aInv m). Qed.

Lemma conjugation_keeps_scalar_and_norm_witness :
  w (mulQ (mulQ (mkQ 2 1 0 1) (mkQ 1 2 3 4) (Some 13)) (mkQ 9 2 0 2) (Some 13))
  = mod_ 1 13 /\
  normSqQ (mulQ (mulQ (mkQ 2 1 0 1) (mkQ 1 2 3 4) (Some 13)) (mkQ 9 2 0 2)
                (Some 13)) (Some 13)
  = normSqQ (mkQ 1 2 3 4) (Some 13).
Proof.
  apply (conjugation_keeps_scalar_and_norm (mkQ 2 1 0 1) (mkQ 1 2 3 4)
           (mkQ 9 2 0 2) 13); [lia | reflexivity | reflexivity].
Defined.

(** *** Congruence of quaternions *)

Lemma congQ_refl (m : Z) (a : Quaternion) : congQ m a a.
Proof. unfold congQ. repeat split; reflexivity. Qed.

Lemma congQ_sym (m : Z) (a b : Quaternion) : congQ m a b -> congQ m b a.
Proof. unfold congQ. intros (H1 & H2 & H3 & H4). repeat split; symmetry; assumption. Qed.

Lemma congQ_trans (m : Z) (a b c : Quaternion) :
  congQ m a b -> congQ m b c -> congQ m a c.
Proof.
  unfold congQ. intros (H1 & H2 & H3 & H4) (K1 & K2 & K3 & K4).
  repeat split; etransitivity; eassumption.
Qed.

#[local] Instance congQ_equiv (m : Z) : Equivalence (congQ m).
Proof.
  constructor;
    [exact (congQ_refl m) | exact (congQ_sym m) | exact (congQ_trans m)].
Qed.

(** The plain product respects congruence. *)
Lemma congQ_mulQ (m : Z) (a a' b b' : Quaternion) :
  congQ m a a' -> congQ m b b' ->
  congQ m (mulQ a b None) (mulQ a' b' None).
Proof.
  unfold congQ, mulQ. cbn.
  intros (H1 & H2 & H3 & H4) (K1 & K2 & K3 & K4).
  repeat split;
    rewrite H1, H2, H3, H4, K1, K2, K3, K4; reflexivity.
Qed.

(** The reduced product is congruent to the plain one. *)
Lemma mulQ_congQ (m : Z) (a b : Quaternion) :
  m <> 0 -> congQ m (mulQ a b (Some m)) (mulQ a b None).
Proof.
  intros Hm. unfold congQ, mulQ. rewrite given_nonzero by assumption. cbn.
  repeat split; apply mod_strip; assumption.
Qed.

Lemma mulQ_congQ_deep (m : Z) (a a' b b' : Quaternion) :
  m <> 0 -> congQ m a a' -> congQ m b b' ->
  congQ m (mulQ a b (Some m)) (mulQ a' b' None).
Proof.
  intros Hm Ha Hb.
  transitivity (mulQ a b None);
    [apply mulQ_congQ; assumption | apply congQ_mulQ; assumption].
Qed.

(** Reduced quaternions that are congruent are equal. *)
Lemma congQ_inRange_eq (m : Z) (a b : Quaternion) :
  inRange m a -> inRange m b -> congQ m a b -> a = b.
Proof.
  unfold inRange, congQ, eqm.
  destruct a as [aw ax ay az], b as [bw bx b_y bz]; cbn.
  intros (A1 & A2 & A3 & A4) (B1 & B2 & B3 & B4) (C1 & C2 & C3 & C4).
  rewrite !Z.mod_small in C1, C2, C3, C4 by assumption.
  congruence.
Qed.

Lemma mulQ_inRange (m : Z) (a b : Quaternion) :
  0 < m -> inRange m (mulQ a b (Some m)).
Proof.
  intros Hm. unfold mulQ, inRange. rewrite given_nonzero by lia. cbn.
  repeat split; apply mod_range; assumption.
Qed.

Lemma mulQ_plain_assoc (a b c : Quaternion) :
  mulQ (mulQ a b None) c None = mulQ a (mulQ b c None) None.
Proof. unfold mulQ; cbn [given w x y z]. f_equal; ring. Qed.

Lemma mulQ_plain_one_l (a : Quaternion) : mulQ (mkQ 1 0 0 0) a None = a.
Proof. destruct a. unfold mulQ; cbn [given w x y z]. f_equal; ring. Qed.

Lemma mulQ_plain_one_r (a : Quaternion) : mulQ a (mkQ 1 0 0 0) None = a.
Proof. destruct a. unfold mulQ; cbn [given w x y z]. f_equal; ring. Qed.

Section Commuting.

Variables (m : Z) (A B G aInv bInv : Quaternion).
Hypothesis m_pos : 0 < m.
Hypothesis A_r : mulQ A aInv (Some m) = mkQ 1 0 0 0.
Hypothesis A_l : mulQ aInv A (Some m) = mkQ 1 0 0 0.
Hypothesis B_r : mulQ B bInv (Some m) = mkQ 1 0 0 0.
Hypothesis B_l : mulQ bInv B (Some m) = mkQ 1 0 0 0.
Hypothesis AB_BA : mulQ A B (Some m) = mulQ B A (Some m).

Local Notation "a ** b" := (mulQ a b None) (at level 40, left associativity).
Local Abbreviation one := (mkQ 1 0 0 0).

Lemma plain_of_reduced (a b c : Quaternion) :
  mulQ a b (Some m) = c -> congQ m (a ** b) c.
Proof.
  intros <-. symmetry. apply mulQ_congQ. lia.
Qed.

Lemma AB_BA_plain : congQ m (A ** B) (B ** A).
Proof.
  transitivity (mulQ A B (Some m)).
  - symmetry. apply mulQ_congQ. lia.
  - rewrite AB_BA. apply mulQ_congQ. lia.
Qed.

(** [bInv * aInv] is a left inverse of [A * B]. *)
Lemma left_inverse_AB : congQ m ((bInv ** aInv) ** (A ** B)) one.
Proof.
  replace ((bInv ** aInv) ** (A ** B)) with (bInv ** ((aInv ** A) ** B))
    by (rewrite !mulQ_plain_assoc; reflexivity).
  transitivity (bInv ** (one ** B)).
  - apply congQ_mulQ; [reflexivity |].
    apply congQ_mulQ; [apply plain_of_reduced; exact A_l | reflexivity].
  - rewrite mulQ_plain_one_l. apply plain_of_reduced; exact B_l.
Qed.

(** [aInv * bInv] is a right inverse of [A * B], because [A * B] is [B * A]. *)
Lemma right_inverse_AB : congQ m ((A ** B) ** (aInv ** bInv)) one.
Proof.
  transitivity ((B ** A) ** (aInv ** bInv)).
  - apply congQ_mulQ; [exact AB_BA_plain | reflexivity].
  - replace ((B ** A) ** (aInv ** bInv)) with (B ** ((A ** aInv) ** bInv))
      by (rewrite !mulQ_plain_assoc; reflexivity).
    transitivity (B ** (one ** bInv)).
    + apply congQ_mulQ; [reflexivity |].
      apply congQ_mulQ; [apply plain_of_reduced; exact A_r | reflexivity].
    + rewrite mulQ_plain_one_l. apply plain_of_reduced; exact B_r.
Qed.

Lemma inverses_commute : congQ m (bInv ** aInv) (aInv ** bInv).
Proof.
  transitivity ((bInv ** aInv) ** one);
    [rewrite mulQ_plain_one_r; reflexivity |].
  transitivity ((bInv ** aInv) ** ((A ** B) ** (aInv ** bInv))).
  { apply congQ_mulQ; [reflexivity |]. symmetry. exact right_inverse_AB. }
  replace ((bInv ** aInv) ** ((A ** B) ** (aInv ** bInv)))
    with (((bInv ** aInv) ** (A ** B)) ** (aInv ** bInv))
    by (rewrite !mulQ_plain_assoc; reflexivity).
  transitivity (one ** (aInv ** bInv)).
  { apply congQ_mulQ; [exact left_inverse_AB | reflexivity]. }
  rewrite mulQ_plain_one_l. reflexivity.
Qed.

Lemma commuting_shared_equal :
  mulQ (mulQ A (mulQ (mulQ B G (Some m)) bInv (Some m)) (Some m)) aInv (Some m)
  = mulQ (mulQ B (mulQ (mulQ A G (Some m)) aInv (Some m)) (Some m)) bInv (Some m).
Proof.
  assert (Hnz : m <> 0) by lia.
  apply (congQ_inRange_eq m); try (apply mulQ_inRange; exact m_pos).
  transitivity ((A ** ((B ** G) ** bInv)) ** aInv).
  { repeat (first [apply mulQ_congQ_deep; [exact Hnz | |] | reflexivity]). }
  transitivity ((B ** ((A ** G) ** aInv)) ** bInv).
  2: { symmetry.
       repeat (first [apply mulQ_congQ_deep; [exact Hnz | |] | reflexivity]). }
  replace ((A ** ((B ** G) ** bInv)) ** aInv)
    with ((A ** B) ** (G ** (bInv ** aInv)))
    by (rewrite !mulQ_plain_assoc; reflexivity).
  replace ((B ** ((A ** G) ** aInv)) ** bInv)
    with ((B ** A) ** (G ** (aInv ** bInv)))
    by (rewrite !mulQ_plain_assoc; reflexivity).
  apply congQ_mulQ; [exact AB_BA_plain |].
  apply congQ_mulQ; [reflexivity | exact inverses_commute].
Qed.

End Commuting.

Lemma commuting_derivations_equal (a b g aInv bInv : Quaternion) (m : Z) :
  1 < m ->
  Z.gcd (normSqQ a (Some m)) m = 1 ->
  Z.gcd (normSqQ b (Some m)) m = 1 ->
  invQ a (Some m) = Inverse aInv ->
  invQ b (Some m) = Inverse bInv ->
  mulQ a b (Some m) = mulQ b a (Some m) ->
  mulQ (mulQ a (mulQ (mulQ b g (Some m)) bInv (Some m)) (Some m)) aInv (Some m)
  = mulQ (mulQ b (mulQ (mulQ a g (Some m)) aInv (Some m)) (Some m)) bInv (Some m).
Proof.
  intros Hm Ha Hb Hai Hbi Hcomm.
  rewrite invQ_unfold in Hai
    by (try lia; exact (coprime_norm_nonzero _ m Hm Ha)).
  rewrite invQ_unfold in Hbi
    by (try lia; exact (coprime_norm_nonzero _ m Hm Hb)).
  inversion Hai; subst aInv. inversion Hbi; subst bInv.
  pose proof (scaled_conjugate_inverse a m _ Hm (coprime_norm_inverse a m Hm Ha))
    as (Har & Hal).
  pose proof (scaled_conjugate_inverse b m _ Hm (coprime_norm_inverse b m Hm Hb))
    as (Hbr & Hbl).
  apply commuting_shared_equal; try assumption. lia.
Qed.

(** On exact integers: if the two secrets commute modulo [m], the two derivations agree:
    [A (B G B^-1) A^-1] and [B (A G A^-1) B^-1] are the same quaternion. *)
Theorem commuting_secrets_agree (a b g aInv bInv : Quaternion) (m : Z) :
  1 < m ->
  Z.gcd (normSqQ a (Some m)) m = 1 ->
  Z.gcd (normSqQ b (Some m)) m = 1 ->
  invQ a (Some m) = Inverse aInv ->
  invQ b (Some m) = Inverse bInv ->
  mulQ a b (Some m) = mulQ b a (Some m) ->
  mulQ (mulQ a (mulQ (mulQ b g (Some m)) bInv (Some m)) (Some m)) aInv (Some m)
  = mulQ (mulQ b (mulQ (mulQ a g (Some m)) aInv (Some m)) (Some m)) bInv (Some m).
Proof. exact (commuting_derivations_equal a b g aInv bInv m). Qed.

Lemma commuting_secrets_agree_witness :
  mulQ (mulQ (mkQ 2 1 0 1)
             (mulQ (mulQ (mkQ 3 2 0 2) (mkQ 1 2 3 4) (Some 13)) (mkQ 4 6 0 6)
                   (Some 13)) (Some 13)) (mkQ 9 2 0 2) (Some 13)
  = mulQ (mulQ (mkQ 3 2 0 2)
               (mulQ (mulQ (mkQ 2 1 0 1) (mkQ 1 2 3 4) (Some 13)) (mkQ 9 2 0 2)
                     (Some 13)) (Some 13)) (mkQ 4 6 0 6) (Some 13).
Proof.
  apply (commuting_secrets_agree (mkQ 2 1 0 1) (mkQ 3 2 0 2) (mkQ 1 2 3 4)
           (mkQ 9 2 0 2) (mkQ 4 6 0 6) 13);
    [lia | reflexivity | reflexivity | reflexivity | reflexivity | reflexivity].
Defined.

(** For a prime modulus, whatever [invQ] accepts has a norm coprime with it. *)
Lemma prime_inverse_coprime (q qInv : Quaternion) (m : Z) :
  prime m -> invQ q (Some m) = Inverse qInv ->
  Z.gcd (normSqQ q (Some m)) m = 1.
Proof.
  intros Hp Hinv.
  assert (Hm : 1 < m) by (destruct Hp; assumption).
  apply prime_residue_coprime; [exact Hp |].
  assert (Hn : normSqQ q (Some m) <> 0).
  { intros E. rewrite (invQ_zero_norm _ _ E) in Hinv. discriminate. }
  assert (Hr : 0 <= normSqQ q (Some m) < m)
    by (unfold normSqQ; rewrite given_nonzero by lia; apply mod_range; lia).
  lia.
Qed.

(** *** [invQ] without a modulus *)

Lemma sum_squares_zero (a b c d : Z) :
  a * a + b * b + c * c + d * d = 0 -> a = 0 /\ b = 0 /\ c = 0 /\ d = 0.
Proof. intros H. nia. Qed.

(** On exact integers: without a modulus [invQ] returns [null] on the zero quaternion
    only; on any other it returns the conjugate over the squared norm [n],
    which is positive, and the conjugate times the quaternion, on either
    side, is the scalar [n]. *)
Theorem invQ_without_modulus (q : Quaternion) :
  (q = mkQ 0 0 0 0 /\ invQ q None = Null) \/
  (exists c n,
      invQ q None = Quotient c n /\
      0 < n /\
      mulQ q c None = mkQ n 0 0 0 /\
      mulQ c q None = mkQ n 0 0 0).
Proof.
  unfold invQ, normSqQ, conjugateQ. cbn [given].
  destruct (Z.eqb_spec (w q * w q + x q * x q + y q * y q + z q * z q) 0)
    as [E | E].
  - left. split; [| reflexivity].
    destruct (sum_squares_zero _ _ _ _ E) as (Hw & Hx & Hy & Hz).
    destruct q; cbn in *; subst; reflexivity.
  - right. eexists _, _. split; [reflexivity |].
    split; [nia |].
    unfold mulQ; cbn [given w x y z]. split; f_equal; ring.
Qed.

(** *** [formatQ] *)

Lemma string_of_uint_numeric (d : uint) :
  allNumeric (NilEmpty.string_of_uint d) = true.
Proof. induction d; cbn [NilEmpty.string_of_uint allNumeric]; auto. Qed.

Lemma toFixed0_numeric (n : Z) : allNumeric (toFixed0 n) = true.
Proof.
  unfold toFixed0, NilZero.string_of_int, NilZero.string_of_uint.
  destruct (Z.to_int n) as [d | d]; destruct d;
    try reflexivity;
    cbn [allNumeric NilEmpty.string_of_uint];
    rewrite ?string_of_uint_numeric; reflexivity.
Qed.

Lemma to_int_proper (n : Z) :
  Z.to_int n <> Decimal.Pos Nil /\ Z.to_int n <> Decimal.Neg Nil.
Proof.
  destruct n as [| p | p]; cbn; split; try discriminate;
    intros E; inversion E as [E'];
    exact (Unsigned.to_uint_nonnil p E').
Qed.

Lemma toFixed0_injective (a b : Z) : toFixed0 a = toFixed0 b -> a = b.
Proof.
  intros E. unfold toFixed0 in E.
  apply (f_equal NilZero.int_of_string) in E.
  destruct (to_int_proper a) as [Ha1 Ha2], (to_int_proper b) as [Hb1 Hb2].
  rewrite !NilZero.isi in E by assumption.
  inversion E as [E'].
  apply (f_equal Z.of_int) in E'. rewrite !DecimalZ.of_to in E'. exact E'.
Qed.

(** A run of numeric characters followed by another character can be read
    back in one way only. *)
Lemma numeric_prefix_unique (s1 s2 r1 r2 : string) (c1 c2 : ascii) :
  allNumeric s1 = true -> allNumeric s2 = true ->
  isNumeric c1 = false -> isNumeric c2 = false ->
  (s1 ++ String c1 r1 = s2 ++ String c2 r2)%string ->
  s1 = s2 /\ r1 = r2.
Proof.
  revert s2. induction s1 as [| a s1 IH]; intros [| b s2] H1 H2 Hc1 Hc2 E;
    cbn in *.
  - inversion E; auto.
  - inversion E; subst. apply andb_true_iff in H2 as [H2 _]. congruence.
  - inversion E; subst. apply andb_true_iff in H1 as [H1 _]. congruence.
  - inversion E; subst.
    apply andb_true_iff in H1 as [_ H1]. apply andb_true_iff in H2 as [_ H2].
    destruct (IH s2 H1 H2 Hc1 Hc2 H3) as [-> ->]. auto.
Qed.

(** X23.  [formatQ] shows different quaternions differently: the text
    [[w, xi, yj, zk]] determines the four components. *)
Theorem formatQ_injective (q1 q2 : Quaternion) :
  formatQ q1 = formatQ q2 -> q1 = q2.
Proof.
  destruct q1 as [w1 x1 y1 z1], q2 as [w2 x2 y2 z2].
  unfold formatQ. cbn [w x y z].
  intros E. cbn [append] in E. inversion E as [E1]. clear E.
  apply numeric_prefix_unique in E1
    as [Ew E2]; try apply toFixed0_numeric; try reflexivity.
  inversion E2 as [E3]. clear E2.
  apply numeric_prefix_unique in E3
    as [Ex E4]; try apply toFixed0_numeric; try reflexivity.
  inversion E4 as [E5]. clear E4.
  apply numeric_prefix_unique in E5
    as [Ey E6]; try apply toFixed0_numeric; try reflexivity.
  inversion E6 as [E7]. clear E6.
  change ("k]"%string) with (String "k" "]") in E7.
  apply numeric_prefix_unique in E7
    as [Ez _]; try apply toFixed0_numeric; try reflexivity.
  apply toFixed0_injective in Ew, Ex, Ey, Ez. congruence.
Qed.

Lemma formatQ_injective_witness : mkQ 1 (-20) 0 1009 = mkQ 1 (-20) 0 1009.
Proof.
  apply (formatQ_injective (mkQ 1 (-20) 0 1009) (mkQ 1 (-20) 0 1009)).
  reflexivity.
Defined.

Example formatQ_sample : formatQ (mkQ 1 (-20) 0 1009) = "[1, -20i, 0j, 1009k]"%string.
Proof. reflexivity. Qed.

End QMathAlgebra.

(* ===================================================================== *)
(** ** The protocol as a whole                                            *)
(* ===================================================================== *)

Module ProtocolFacts.

Import QMath SimulationLab QMathFacts QMathAlgebra SimulationLabFacts.
Local Open Scope string_scope.

(** With a modulus, [invQ] returns [null] or a quaternion. *)
Lemma invQ_modular_cases (q : Quaternion) (m : Z) :
  m <> 0 ->
  invQ q (Some m) = Null \/ exists qInv, invQ q (Some m) = Inverse qInv.
Proof.
  intros Hm. unfold invQ.
  destruct (normSqQ q (Some m) =? 0)%Z; [left; reflexivity |].
  rewrite given_nonzero by assumption. right. eexists. reflexivity.
Qed.

Lemma invQ_accepted (q : Quaternion) (m : Z) :
  m <> 0 -> isNull (invQ q (Some m)) = false ->
  exists qInv, invQ q (Some m) = Inverse qInv.
Proof.
  intros Hm Hacc.
  destruct (invQ_modular_cases q m Hm) as [E | E]; [| exact E].
  rewrite E in Hacc. discriminate.
Qed.

(** *** [generateKeys] followed by [performExchange] *)

Lemma generateKeys_secrets_accepted
    (env : Env) (fuel : nat) (world world' : World) :
  generateKeys env fuel world = Done tt world' ->
  modulus (state world') = modulus (state world) /\
  isNull (invQ (aliceSecret (state world')) (Some (modulus (state world))))
  = false /\
  isNull (invQ (bobSecret (state world')) (Some (modulus (state world))))
  = false.
Proof.
  unfold generateKeys, bind, getState, random, setState, addLog.
  intros Hrun.
  destruct (resample env fuel _ _ _) as [aliceSec world1 | |] eqn:Halice;
    try discriminate Hrun.
  destruct (resample env fuel _ _ _) as [bobSec world2 | |] eqn:Hbob in Hrun;
    try discriminate Hrun.
  inversion Hrun; subst world'.
  apply resample_frame in Halice, Hbob.
  destruct Halice as (Hst1 & _ & _ & Hacc1), Hbob as (Hst2 & _ & _ & Hacc2).
  cbn in Hst1, Hst2 |- *. rewrite Hst2, Hst1. auto.
Qed.

(** X17.  The secrets [generateKeys] stores are the ones its loops accepted,
    so with a non-zero modulus the next [performExchange] never takes its
    regeneration branch: it returns with both public values present, the
    secrets kept and no random number drawn. *)
Theorem performExchange_after_generateKeys
    (env : Env) (fuel fuel' : nat) (world world1 : World) :
  modulus (state world) <> 0 ->
  generateKeys env fuel world = Done tt world1 ->
  exists world2,
    performExchange env fuel' world1 = Done tt world2 /\
    isPresent (alicePublic (state world2)) = true /\
    isPresent (bobPublic (state world2)) = true /\
    aliceSecret (state world2) = aliceSecret (state world1) /\
    bobSecret (state world2) = bobSecret (state world1) /\
    draws world2 = draws world1.
Proof.
  intros Hm Hgen.
  destruct (generateKeys_secrets_accepted env fuel world world1 Hgen)
    as (Hmod & Ha & Hb).
  rewrite <- Hmod in Ha, Hb, Hm.
  destruct (invQ_accepted _ _ Hm Ha) as [aInv Hai].
  destruct (invQ_accepted _ _ Hm Hb) as [bInv Hbi].
  unfold performExchange, bind, getState.
  rewrite Hai, Hbi. cbn [isNull orb].
  unfold setState, addLog.
  eexists. split; [reflexivity |]. cbn. auto.
Qed.

Lemma performExchange_after_generateKeys_witness :
  exists world1 world2,
    generateKeys constantEnv 0 derivedWorld = Done tt world1 /\
    performExchange constantEnv 0 world1 = Done tt world2 /\
    isPresent (alicePublic (state world2)) = true /\
    isPresent (bobPublic (state world2)) = true.
Proof.
  assert (Hgen : exists world1,
             generateKeys constantEnv 0 derivedWorld = Done tt world1)
    by (eexists; vm_compute; reflexivity).
  destruct Hgen as [world1 Hgen].
  destruct (performExchange_after_generateKeys constantEnv 0 0 derivedWorld
              world1)
    as (world2 & Hrun & Ha & Hb & _); [cbn; lia | exact Hgen |].
  exists world1, world2. auto.
Defined.

(** *** The exchange followed by the derivation *)

Lemma pipeline_success
    (env : Env) (fuel : nat) (world : World) (aInv bInv : Quaternion) :
  let st := state world in
  let m := Some (modulus st) in
  invQ (aliceSecret st) m = Inverse aInv ->
  invQ (bobSecret st) m = Inverse bInv ->
  let publicA := mulQ (mulQ (aliceSecret st) (baseP st) m) aInv m in
  let publicB := mulQ (mulQ (bobSecret st) (baseP st) m) bInv m in
  exists world',
    (performExchange env fuel ;;; computeSharedSecret env) world
    = Done tt world' /\
    state world'
    = {| modulus := modulus st;
         baseP := baseP st;
         aliceSecret := aliceSecret st;
         bobSecret := bobSecret st;
         alicePublic := Some publicA;
         bobPublic := Some publicB;
         sharedSecretA := Some (mulQ (mulQ (aliceSecret st) publicB m) aInv m);
         sharedSecretB := Some (mulQ (mulQ (bobSecret st) publicA m) bInv m) |} /\
    log world'
    = ("[" ++ toLocaleTimeString env (S (S (ticks world))) ++ "] "
       ++ "Check: Are they equal? "
       ++ (if eqQ (mulQ (mulQ (aliceSecret st) publicB m) aInv m)
                  (mulQ (mulQ (bobSecret st) publicA m) bInv m)
           then "YES" else "NO (Expected for non-commutative)"))
      :: ("[" ++ toLocaleTimeString env (S (ticks world)) ++ "] "
          ++ "Shared values computed.")
      :: ("[" ++ toLocaleTimeString env (ticks world) ++ "] "
          ++ "Public values computed and exchanged via Conjugation.")
      :: log world.
Proof.
  intros st m Ha Hb publicA publicB. subst st m publicA publicB.
  unfold bind at 1.
  unfold performExchange, bind, getState.
  rewrite Ha, Hb. cbn [isNull orb].
  unfold setState, addLog. cbn [state log ticks draws].
  unfold computeSharedSecret, bind, getState.
  cbn [state alicePublic bobPublic aliceSecret bobSecret modulus].
  rewrite Ha, Hb. cbn [isNull orb].
  unfold setState, addLog.
  eexists. split; [reflexivity |]. cbn. split; reflexivity.
Qed.

Lemma computeSharedSecret_noop_on_absent (env : Env) (world : World) :
  alicePublic (state world) = None \/ bobPublic (state world) = None ->
  computeSharedSecret env world = Done tt world.
Proof.
  intros Habs. unfold computeSharedSecret, bind, getState.
  destruct (alicePublic (state world)); [| reflexivity].
  destruct (bobPublic (state world)); [| reflexivity].
  destruct Habs; discriminate.
Qed.

(** When [invQ] refuses a secret, the two phases end with nothing derived. *)
Lemma pipeline_on_null
    (env : Env) (fuel : nat) (world world' : World) :
  invQ (aliceSecret (state world)) (Some (modulus (state world))) = Null \/
  invQ (bobSecret (state world)) (Some (modulus (state world))) = Null ->
  (performExchange env fuel ;;; computeSharedSecret env) world = Done tt world' ->
  derivedAbsent (state world').
Proof.
  intros Hnull Hrun. unfold bind at 1 in Hrun.
  rewrite (performExchange_on_null env fuel world Hnull) in Hrun.
  unfold bind at 1 in Hrun. unfold addLog at 1 in Hrun.
  destruct (generateKeys env fuel _) as [[] world1 | |] eqn:Hgen;
    try discriminate Hrun.
  destruct (generateKeys_derivedAbsent _ _ _ _ Hgen) as [Habs _].
  rewrite (computeSharedSecret_noop_on_absent env world1) in Hrun
    by (left; exact (proj1 Habs)).
  inversion Hrun; subst world'. exact Habs.
Qed.

(** X18.  With a positive modulus, after the exchange phase followed by the
    derivation phase every derived quaternion in the state has all its
    components in [[0, modulus)], whatever the state held before. *)
Theorem pipeline_derived_inRange
    (env : Env) (fuel : nat) (world world' : World) (q : Quaternion) :
  0 < modulus (state world) ->
  (performExchange env fuel ;;; computeSharedSecret env) world = Done tt world' ->
  alicePublic (state world') = Some q \/ bobPublic (state world') = Some q \/
  sharedSecretA (state world') = Some q \/ sharedSecretB (state world') = Some q ->
  inRange (modulus (state world)) q.
Proof.
  intros Hm Hrun Hq.
  assert (Hnz : modulus (state world) <> 0) by lia.
  destruct (invQ_modular_cases (aliceSecret (state world)) _ Hnz)
    as [Ha | [aInv Ha]];
    [| destruct (invQ_modular_cases (bobSecret (state world)) _ Hnz)
         as [Hb | [bInv Hb]]].
  - destruct (pipeline_on_null env fuel world world' (or_introl Ha) Hrun)
      as (H1 & H2 & H3 & H4).
    rewrite H1, H2, H3, H4 in Hq. intuition discriminate.
  - destruct (pipeline_on_null env fuel world world' (or_intror Hb) Hrun)
      as (H1 & H2 & H3 & H4).
    rewrite H1, H2, H3, H4 in Hq. intuition discriminate.
  - destruct (pipeline_success env fuel world aInv bInv Ha Hb)
      as (world2 & Hrun2 & Hst & _).
    rewrite Hrun in Hrun2. inversion Hrun2; subst world2.
    rewrite Hst in Hq. cbn in Hq.
    destruct Hq as [E | [E | [E | E]]]; inversion E; subst q;
      apply mulQ_inRange; exact Hm.
Qed.

Lemma pipeline_derived_inRange_witness :
  exists world' q,
    (performExchange constantEnv 0 ;;; computeSharedSecret constantEnv)
      derivedWorld = Done tt world' /\
    sharedSecretA (state world') = Some q /\
    inRange 13 q.
Proof.
  assert (Hrun : exists world',
             (performExchange constantEnv 0 ;;; computeSharedSecret constantEnv)
               derivedWorld = Done tt world' /\
             sharedSecretA (state world') = Some (mkQ 1 4 3 11))
    by (eexists; split; vm_compute; reflexivity).
  destruct Hrun as (world' & Hrun & Hq).
  exists world', (mkQ 1 4 3 11).
  split; [exact Hrun | split; [exact Hq |]].
  apply (pipeline_derived_inRange constantEnv 0 derivedWorld world'
           (mkQ 1 4 3 11));
    [cbn; lia | exact Hrun | right; right; left; exact Hq].
Defined.

(** X19.  With a prime modulus and secrets [invQ] accepts, the two derived
    values always agree on their scalar part and on their squared norm, which
    are those of the base: whatever the secrets, [sharedSecretA] and
    [sharedSecretB] can only differ in their vector parts. *)
Theorem pipeline_shared_scalar_and_norm
    (env : Env) (fuel : nat) (world : World) (aInv bInv : Quaternion) :
  let st := state world in
  let m := Some (modulus st) in
  prime (modulus st) ->
  invQ (aliceSecret st) m = Inverse aInv ->
  invQ (bobSecret st) m = Inverse bInv ->
  exists world' sharedA sharedB,
    (performExchange env fuel ;;; computeSharedSecret env) world
    = Done tt world' /\
    sharedSecretA (state world') = Some sharedA /\
    sharedSecretB (state world') = Some sharedB /\
    w sharedA = mod_ (w (baseP st)) (modulus st) /\
    w sharedB = mod_ (w (baseP st)) (modulus st) /\
    normSqQ sharedA m = normSqQ (baseP st) m /\
    normSqQ sharedB m = normSqQ (baseP st) m.
Proof.
  intros st m Hp Ha Hb. subst st m.
  assert (Hm : 1 < modulus (state world)) by (destruct Hp; assumption).
  pose proof (prime_inverse_coprime _ _ _ Hp Ha) as Hca.
  pose proof (prime_inverse_coprime _ _ _ Hp Hb) as Hcb.
  destruct (pipeline_success env fuel world aInv bInv Ha Hb)
    as (world' & Hrun & Hst & _).
  eexists world', _, _.
  split; [exact Hrun |].
  rewrite Hst. cbn [sharedSecretA sharedSecretB].
  split; [reflexivity | split; [reflexivity |]].
  set (G := baseP (state world)) in *.
  set (p := modulus (state world)) in *.
  destruct (conjugation_invariants _ G aInv p Hm Hca Ha) as (HwA & HnA).
  destruct (conjugation_invariants _ G bInv p Hm Hcb Hb) as (HwB & HnB).
  destruct (conjugation_invariants _ (mulQ (mulQ (bobSecret (state world)) G (Some p)) bInv (Some p))
              aInv p Hm Hca Ha) as (HwAB & HnAB).
  destruct (conjugation_invariants _ (mulQ (mulQ (aliceSecret (state world)) G (Some p)) aInv (Some p))
              bInv p Hm Hcb Hb) as (HwBA & HnBA).
  assert (Hidem : mod_ (mod_ (w G) p) p = mod_ (w G) p)
    by (apply mod_small_id; apply mod_range; lia).
  repeat split.
  - rewrite HwAB, HwB. exact Hidem.
  - rewrite HwBA, HwA. exact Hidem.
  - rewrite HnAB. exact HnB.
  - rewrite HnBA. exact HnA.
Qed.

Lemma pipeline_shared_scalar_and_norm_witness :
  exists world' sharedA sharedB,
    (performExchange constantEnv 0 ;;; computeSharedSecret constantEnv)
      initialWorld = Done tt world' /\
    sharedSecretA (state world') = Some sharedA /\
    sharedSecretB (state world') = Some sharedB /\
    w sharedA = mod_ 1 13 /\
    w sharedB = mod_ 1 13 /\
    normSqQ sharedA (Some 13) = normSqQ (mkQ 1 2 3 4) (Some 13) /\
    normSqQ sharedB (Some 13) = normSqQ (mkQ 1 2 3 4) (Some 13).
Proof.
  apply (pipeline_shared_scalar_and_norm constantEnv 0 initialWorld
           (mkQ 9 2 0 2) (mkQ 6 8 7 0));
    [exact prime_13 | reflexivity | reflexivity].
Defined.

(** X20.  With a prime modulus, if the two secrets commute modulo it, the
    derivation phase stores equal values: the render's [secretsMatch] is
    true and the log says YES. *)
Theorem pipeline_commuting_secrets_match
    (env : Env) (fuel : nat) (world : World) (aInv bInv : Quaternion) :
  let st := state world in
  let m := Some (modulus st) in
  prime (modulus st) ->
  invQ (aliceSecret st) m = Inverse aInv ->
  invQ (bobSecret st) m = Inverse bInv ->
  mulQ (aliceSecret st) (bobSecret st) m = mulQ (bobSecret st) (aliceSecret st) m ->
  exists world' entries,
    (performExchange env fuel ;;; computeSharedSecret env) world
    = Done tt world' /\
    sharedSecretA (state world') = sharedSecretB (state world') /\
    secretsMatch (state world') = true /\
    log world'
    = ("[" ++ toLocaleTimeString env (S (S (ticks world))) ++ "] "
       ++ "Check: Are they equal? YES") :: entries.
Proof.
  intros st m Hp Ha Hb Hcomm. subst st m.
  assert (Hm : 1 < modulus (state world)) by (destruct Hp; assumption).
  pose proof (prime_inverse_coprime _ _ _ Hp Ha) as Hca.
  pose proof (prime_inverse_coprime _ _ _ Hp Hb) as Hcb.
  destruct (pipeline_success env fuel world aInv bInv Ha Hb)
    as (world' & Hrun & Hst & Hlog).
  pose proof (commuting_derivations_equal _ _ (baseP (state world)) aInv bInv _
                Hm Hca Hcb Ha Hb Hcomm) as Heq.
  rewrite Heq in Hst, Hlog.
  assert (Hrefl : forall q, eqQ q q = true)
    by (intros q; unfold eqQ; rewrite !Z.eqb_refl; reflexivity).
  rewrite Hrefl in Hlog.
  eexists world', _.
  split; [exact Hrun |].
  rewrite Hst. unfold secretsMatch. cbn [sharedSecretA sharedSecretB].
  split; [reflexivity | split; [apply Hrefl | exact Hlog]].
Qed.

Lemma pipeline_commuting_secrets_match_witness :
  exists world' entries,
    (performExchange constantEnv 0 ;;; computeSharedSecret constantEnv)
      {| state :=
           {| modulus := 13;
              baseP := mkQ 1 2 3 4;
              aliceSecret := mkQ 2 1 0 1;
              bobSecret := mkQ 3 2 0 2;
              alicePublic := None;
              bobPublic := None;
              sharedSecretA := None;
              sharedSecretB := None |};
         log := []; draws := 0; ticks := 0 |}
    = Done tt world' /\
    sharedSecretA (state world') = sharedSecretB (state world') /\
    secretsMatch (state world') = true /\
    log world' = "[12:00:00] Check: Are they equal? YES" :: entries.
Proof.
  apply (pipeline_commuting_secrets_match constantEnv 0
           {| state :=
                {| modulus := 13;
                   baseP := mkQ 1 2 3 4;
                   aliceSecret := mkQ 2 1 0 1;
                   bobSecret := mkQ 3 2 0 2;
                   alicePublic := None;
                   bobPublic := None;
                   sharedSecretA := None;
                   sharedSecretB := None |};
              log := []; draws := 0; ticks := 0 |}
           (mkQ 9 2 0 2) (mkQ 4 6 0 6));
    [exact prime_13 | reflexivity | reflexivity | reflexivity].
Defined.

(** *** A modulus without invertible elements *)

Lemma invQ_modulus_one (q : Quaternion) : invQ q (Some 1) = Null.
Proof.
  apply invQ_zero_norm. unfold normSqQ. rewrite given_nonzero by lia.
  pose proof (mod_range (w q * w q + x q * x q + y q * y q + z q * z q) 1).
  lia.
Qed.

Lemma resample_modulus_one (env : Env) (fuel : nat) :
  forall sec world, resample env fuel 1 sec world = OutOfFuel.
Proof.
  induction fuel as [| fuel IH]; intros sec world; cbn [resample];
    rewrite invQ_modulus_one; cbn [isNull].
  - reflexivity.
  - unfold bind, random. apply IH.
Qed.

(** X21.  With modulus [1] no quaternion is invertible, so the resampling
    loop of [generateKeys] has no exit: no amount of fuel makes it return, and
    the same holds for [performExchange], which falls into it. *)
Theorem modulus_one_never_returns (env : Env) (world : World) (fuel : nat) :
  modulus (state world) = 1 ->
  generateKeys env fuel world = OutOfFuel /\
  performExchange env fuel world = OutOfFuel.
Proof.
  intros Hm.
  assert (Hgen : forall world0,
             modulus (state world0) = 1 ->
             generateKeys env fuel world0 = OutOfFuel).
  { intros world0 Hm0.
    unfold generateKeys, bind, getState, random. rewrite Hm0.
    rewrite resample_modulus_one. reflexivity. }
  split; [apply Hgen; exact Hm |].
  rewrite performExchange_on_null
    by (left; rewrite Hm; apply invQ_modulus_one).
  unfold bind at 1. unfold addLog at 1. apply Hgen. exact Hm.
Qed.

Lemma modulus_one_never_returns_witness :
  generateKeys constantEnv 100
    {| state :=
         {| modulus := 1;
            baseP := mkQ 1 2 3 4;
            aliceSecret := mkQ 2 1 0 1;
            bobSecret := mkQ 1 3 1 0;
            alicePublic := None;
            bobPublic := None;
            sharedSecretA := None;
            sharedSecretB := None |};
       log := []; draws := 0; ticks := 0 |}
  = OutOfFuel.
Proof.
  apply (modulus_one_never_returns constantEnv
           {| state :=
                {| modulus := 1;
                   baseP := mkQ 1 2 3 4;
                   aliceSecret := mkQ 2 1 0 1;
                   bobSecret := mkQ 1 3 1 0;
                   alicePublic := None;
                   bobPublic := None;
                   sharedSecretA := None;
                   sharedSecretB := None |};
              log := []; draws := 0; ticks := 0 |} 100).
  reflexivity.
Defined.

(** *** What every reachable state satisfies *)

Lemma derivedAbsent_consistent (st : SimulationState) :
  derivedAbsent st -> phasesConsistent st.
Proof.
  intros (H1 & H2 & H3 & H4). unfold phasesConsistent.
  rewrite H1, H2, H3, H4. cbn. auto.
Qed.

Lemma generateKeys_consistent (env : Env) (fuel : nat) (world world' : World) :
  generateKeys env fuel world = Done tt world' ->
  phasesConsistent (state world').
Proof.
  intros Hrun. apply derivedAbsent_consistent.
  exact (proj1 (generateKeys_derivedAbsent _ _ _ _ Hrun)).
Qed.

Lemma performExchange_consistent
    (env : Env) (fuel : nat) (world world' : World) :
  phasesConsistent (state world) ->
  performExchange env fuel world = Done tt world' ->
  phasesConsistent (state world').
Proof.
  intros (_ & Hshared & _) Hrun.
  unfold performExchange in Hrun. unfold bind at 1 in Hrun.
  unfold getState in Hrun.
  destruct (isNull _ || isNull _).
  - unfold bind at 1 in Hrun. unfold addLog at 1 in Hrun.
    exact (generateKeys_consistent _ _ _ _ Hrun).
  - destruct (invQ (aliceSecret _) _); try discriminate Hrun;
      destruct (invQ (bobSecret _) _); try discriminate Hrun.
    unfold bind, setState, addLog in Hrun.
    inversion Hrun; subst world'. unfold phasesConsistent; cbn. auto.
Qed.

Lemma computeSharedSecret_consistent (env : Env) (world world' : World) :
  phasesConsistent (state world) ->
  computeSharedSecret env world = Done tt world' ->
  phasesConsistent (state world').
Proof.
  intros Hinv Hrun.
  unfold computeSharedSecret in Hrun. unfold bind at 1 in Hrun.
  unfold getState in Hrun.
  destruct (alicePublic (state world)) as [alicePub |] eqn:Hpa;
    [| inversion Hrun; subst; exact Hinv].
  destruct (bobPublic (state world)) as [bobPub |] eqn:Hpb;
    [| inversion Hrun; subst; exact Hinv].
  destruct (isNull _ || isNull _); [inversion Hrun; subst; exact Hinv |].
  destruct (invQ (aliceSecret _) _); try discriminate Hrun;
    destruct (invQ (bobSecret _) _); try discriminate Hrun.
  unfold bind, setState, addLog in Hrun.
  inversion Hrun; subst world'. unfold phasesConsistent; cbn.
  rewrite Hpa, Hpb. cbn. auto.
Qed.

Lemma changeModulus_consistent (value : Z) (world world' : World) :
  phasesConsistent (state world) ->
  changeModulus value world = Done tt world' ->
  phasesConsistent (state world').
Proof.
  intros Hinv Hrun. unfold changeModulus, bind, getState, setState in Hrun.
  inversion Hrun; subst world'. exact Hinv.
Qed.

Lemma reachable_consistent (env : Env) (world : World) :
  Reachable env world -> phasesConsistent (state world).
Proof.
  induction 1 as [| fuel world world' _ _ Hrun
                  | fuel world world' _ IH Hrun
                  | world world' _ IH Hrun
                  | value world world' _ IH Hrun].
  - unfold phasesConsistent; cbn. auto.
  - exact (generateKeys_consistent _ _ _ _ Hrun).
  - exact (performExchange_consistent _ _ _ _ IH Hrun).
  - exact (computeSharedSecret_consistent _ _ _ IH Hrun).
  - exact (changeModulus_consistent _ _ _ IH Hrun).
Qed.

(** X22.  In every state a session can reach by the four handlers, public
    values are present together, shared values are present together, and
    shared values are present only with public ones.  So whenever the
    exchange button is enabled nothing is derived yet, and whenever the
    derivation button is enabled both public values are there and no shared
    value is: from the buttons, [computeSharedSecret] never meets a missing
    public value. *)
Theorem reachable_phases_and_buttons (env : Env) (world : World) :
  Reachable env world ->
  let st := state world in
  phasesConsistent st /\
  (exchangeDisabled st = false -> derivedAbsent st) /\
  (deriveDisabled st = false ->
   isPresent (alicePublic st) = true /\ isPresent (bobPublic st) = true /\
   sharedSecretA st = None /\ sharedSecretB st = None).
Proof.
  intros Hreach st.
  pose proof (reachable_consistent env world Hreach) as Hinv. fold st in Hinv.
  split; [exact Hinv |].
  destruct Hinv as (Hpub & Hsh & Himp).
  unfold exchangeDisabled, deriveDisabled, derivedAbsent.
  destruct (alicePublic st), (bobPublic st), (sharedSecretA st),
    (sharedSecretB st); cbn in *;
    try discriminate; try (specialize (Himp eq_refl); discriminate);
    split; intros; try discriminate; auto.
Qed.

Lemma reachable_phases_and_buttons_witness :
  exists world,
    Reachable constantEnv world /\
    deriveDisabled (state world) = false /\
    isPresent (bobPublic (state world)) = true /\
    sharedSecretA (state world) = None.
Proof.
  assert (Hrun : exists world,
             performExchange constantEnv 0 initialWorld = Done tt world /\
             deriveDisabled (state world) = false)
    by (eexists; split; vm_compute; reflexivity).
  destruct Hrun as (world & Hrun & Hbutton).
  assert (Hreach : Reachable constantEnv world)
    by exact (reach_performExchange constantEnv 0 initialWorld world
                (reach_initial constantEnv) Hrun).
  destruct (reachable_phases_and_buttons constantEnv world Hreach)
    as (_ & _ & Hderive).
  destruct (Hderive Hbutton) as (_ & Hb & Hs & _).
  exists world. auto.
Defined.

End ProtocolFacts.

(* ===================================================================== *)
(** ** Properties of the functions on binary64 numbers                    *)
(* ===================================================================== *)

Module QMathDoubleFacts.

Import QMath QMathFacts QMathAlgebra.
Module D := QMathDouble.

#[local] Existing Instances eqm_setoid Zplus_eqm Zminus_eqm Zmult_eqm Zopp_eqm.

(** *** Rounding *)

Lemma double_exact (n : Z) : Z.abs n <= 2 ^ 53 -> D.double n = n.
Proof.
  intros Hn. unfold D.double.
  destruct (Z.leb_spec (Z.abs n) (2 ^ 53)); [reflexivity | lia].
Qed.

Lemma add_exact (a b : Z) : Z.abs (a + b) <= 2 ^ 53 -> D.add a b = a + b.
Proof. apply double_exact. Qed.

Lemma sub_exact (a b : Z) : Z.abs (a - b) <= 2 ^ 53 -> D.sub a b = a - b.
Proof. apply double_exact. Qed.

Lemma mul_exact (a b : Z) : Z.abs (a * b) <= 2 ^ 53 -> D.mul a b = a * b.
Proof. apply double_exact. Qed.

(** Rounding keeps the sign. *)
Lemma double_sign (n : Z) :
  (0 <= n -> 0 <= D.double n) /\ (n <= 0 -> D.double n <= 0).
Proof.
  unfold D.double.
  destruct (Z.leb_spec (Z.abs n) (2 ^ 53)) as [_ | Hbig]; [split; auto |].
  set (ulp := 2 ^ (Z.log2 (Z.abs n) - 52)).
  assert (Hulp : 0 < ulp).
  { apply Z.pow_pos_nonneg; [lia |].
    assert (53 <= Z.log2 (Z.abs n)); [| lia].
    apply Z.log2_le_pow2; lia. }
  assert (Hq : 0 <= Z.abs n / ulp) by (apply Z.div_pos; lia).
  set (q := Z.abs n / ulp) in *.
  assert (Hq' : 0 <= (if 2 * (Z.abs n mod ulp) <? ulp then q
                      else if ulp <? 2 * (Z.abs n mod ulp) then q + 1
                      else if Z.even q then q else q + 1)).
  { destruct (_ <? _); [lia |]. destruct (_ <? _); [lia |].
    destruct (Z.even q); lia. }
  split; intros Hn.
  - assert (Hs : Z.sgn n = 1) by (apply Z.sgn_pos; lia). rewrite Hs. nia.
  - assert (Hs : Z.sgn n = -1) by (apply Z.sgn_neg; lia). rewrite Hs. nia.
Qed.

(** *** [mod] *)

Lemma rem_bounds (n m : Z) : m <> 0 -> Z.abs (Z.rem n m) < Z.abs m.
Proof. intros Hm. apply Z.rem_bound_abs. assumption. Qed.

Lemma mod_double_range (n m : Z) : 0 < m -> 0 <= D.mod_ n m < m.
Proof.
  intros Hm. unfold D.mod_, D.add.
  pose proof (rem_bounds n m ltac:(lia)) as Hr.
  apply Z.rem_bound_pos; [| assumption].
  apply double_sign. lia.
Qed.

(** Up to [2^52] the addition inside [mod] is exact. *)
Lemma mod_double_exact (n m : Z) :
  m <> 0 -> Z.abs m <= 2 ^ 52 -> D.mod_ n m = mod_ n m.
Proof.
  intros Hm Hb. unfold D.mod_, mod_.
  pose proof (rem_bounds n m Hm) as Hr.
  rewrite add_exact by lia. reflexivity.
Qed.

(** C7, as the code behaves.  For every integer [a] and every positive [m],
    [mod (a, m)] lies in [[0, m)]; and when [m] is at most [2^52] it is
    congruent to [a] modulo [m]: it differs from [a] by a multiple of [m] and
    is the floored residue [a mod m], not the truncating remainder. *)
Theorem mod_double_is_modulo (a m : Z) :
  0 < m ->
  0 <= D.mod_ a m < m /\
  (m <= 2 ^ 52 ->
   (exists k, D.mod_ a m = a + k * m) /\ D.mod_ a m = a mod m).
Proof.
  intros Hm. split; [apply mod_double_range; assumption |].
  intros Hb. rewrite mod_double_exact by lia.
  rewrite mod_modulo by assumption. split; [| reflexivity].
  exists (- (a / m)). rewrite Z.mod_eq by lia. ring.
Qed.

Lemma mod_double_is_modulo_witness :
  0 < 13 /\ 13 <= 2 ^ 52 /\
  0 <= D.mod_ (-7) 13 < 13 /\
  (exists k, D.mod_ (-7) 13 = -7 + k * 13) /\
  D.mod_ (-7) 13 = (-7) mod 13.
Proof.
  assert (Hm : 0 < 13) by lia.
  assert (Hb : 13 <= 2 ^ 52) by lia.
  destruct (mod_double_is_modulo (-7) 13 Hm) as [Hrange Hcong].
  destruct (Hcong Hb) as [Hk Hmod].
  repeat split; try assumption; apply Hrange.
Defined.

(** C7, as stated, at [a = 2^53 - 2] and [m = 2^53 - 1], both exactly
    representable.  [a % m + m] is [2^54 - 3], which rounds to [2^54 - 4], so
    [mod (a, m)] is [2^53 - 3]: in range, but not congruent to [a]. *)
Lemma mod_double_not_congruent :
  D.mod_ (2 ^ 53 - 2) (2 ^ 53 - 1) = 2 ^ 53 - 3 /\
  (2 ^ 53 - 3) mod (2 ^ 53 - 1) <> (2 ^ 53 - 2) mod (2 ^ 53 - 1) /\
  ~ (exists k, D.mod_ (2 ^ 53 - 2) (2 ^ 53 - 1)
               = (2 ^ 53 - 2) + k * (2 ^ 53 - 1)).
Proof.
  assert (E : D.mod_ (2 ^ 53 - 2) (2 ^ 53 - 1) = 2 ^ 53 - 3)
    by (vm_compute; reflexivity).
  split; [exact E | split].
  - vm_compute. discriminate.
  - intros [k Hk]. rewrite E in Hk.
    change (2 ^ 53) with 9007199254740992 in Hk. lia.
Qed.

(** *** The loop of [modInverse] *)

Section Loop.

Variables a m : Z.
Hypothesis m_pos : 0 < m.
Hypothesis m_fits : m <= 2 ^ 52.

(** What the loop keeps from one iteration to the next, for as long as its
    arithmetic is exact: the remainders are combinations of [a] modulo [m],
    their gcd is that of [a] and [m], and the coefficients are bounded by
    [m] and alternate in sign. *)
Lemma modInverse_loop_double_spec (fuel : nat) :
  forall old_r r old_s s old_t t,
    (Z.to_nat r < fuel)%nat ->
    0 <= r <= 2 ^ 52 ->
    Z.abs old_r <= 2 ^ 52 ->
    0 < old_r \/ (s = 0 /\ 0 < r) ->
    eqm m old_r (a * old_s) ->
    eqm m r (a * s) ->
    Z.gcd old_r r = Z.gcd a m ->
    Z.abs old_s <= m ->
    Z.abs s <= m ->
    old_s * s <= 0 ->
    Z.abs (old_r * s - r * old_s) = m ->
    exists g u v,
      D.modInverse_loop fuel old_r r old_s s old_t t = Some (g, u, v) /\
      g = Z.gcd a m /\ eqm m g (a * u) /\ Z.abs u <= m.
Proof.
  induction fuel as [| fuel IH];
    intros old_r r old_s s old_t t Hfuel Hr Hold Hpos Hco Hcr Hgcd Hbo Hbs
           Hsign Hdet; [lia |].
  cbn [D.modInverse_loop].
  destruct (Z.eqb_spec r 0) as [-> | Hr0].
  - exists old_r, old_s, old_t. split; [reflexivity |].
    rewrite Z.gcd_0_r in Hgcd. split; [lia | split; assumption].
  - set (q := old_r / r).
    assert (Hmod : old_r - q * r = old_r mod r)
      by (unfold q; rewrite Z.mod_eq by assumption; ring).
    assert (Hrem : 0 <= old_r mod r < r) by (apply Z.mod_pos_bound; lia).
    assert (Eqr : D.mul q r = q * r) by (apply mul_exact; lia).
    assert (Er : D.sub old_r (D.mul q r) = old_r mod r)
      by (rewrite Eqr, sub_exact by lia; exact Hmod).
    set (s' := old_s - q * s).
    assert (Hq : 0 <= q \/ s = 0).
    { destruct Hpos as [Hp | [Hs _]]; [left | right; exact Hs].
      apply Z.div_pos; lia. }
    assert (Hsign' : s * s' <= 0) by (unfold s'; nia).
    assert (Hdet' : Z.abs (r * s' - (old_r mod r) * s) = m).
    { rewrite <- Hmod. unfold s'.
      replace (r * (old_s - q * s) - (old_r - q * r) * s)
        with (- (old_r * s - r * old_s)) by ring.
      rewrite Z.abs_opp. exact Hdet. }
    assert (Hbs' : Z.abs s' <= m) by nia.
    assert (Eqs : D.mul q s = q * s) by (apply mul_exact; unfold s' in *; lia).
    assert (Es : D.sub old_s (D.mul q s) = s')
      by (rewrite Eqs; apply sub_exact; fold s'; lia).
    rewrite Er, Es. fold q.
    apply IH; try lia.
    + exact Hcr.
    + rewrite <- Hmod. unfold s'. rewrite Hco, Hcr.
      unfold eqm; f_equal; ring.
    + rewrite <- Hgcd, <- Hmod.
      replace (old_r - q * r) with (old_r + (- q) * r) by ring.
      rewrite Z.gcd_add_mult_diag_r. apply Z.gcd_comm.
Qed.

Hypothesis a_fits : Z.abs a <= 2 ^ 52.

(** With more iterations allowed than [m], [modInverse] returns a residue
    [s] with [a * s] congruent to [gcd (a, m)]. *)
Lemma modInverse_double_spec (fuel : nat) :
  (Z.to_nat m < fuel)%nat ->
  exists s,
    D.modInverse fuel a m = Some s /\
    0 <= s < m /\
    (a * s) mod m = Z.gcd a m mod m.
Proof.
  intros Hfuel.
  assert (H1 : 0 <= m <= 2 ^ 52) by lia.
  assert (H2 : 0 < a \/ (0 = 0 /\ 0 < m)) by (right; split; [reflexivity | exact m_pos]).
  assert (H3 : eqm m a (a * 1)) by (unfold eqm; f_equal; ring).
  assert (H4 : eqm m m (a * 0))
    by (unfold eqm; rewrite Z.mul_0_r, Z_mod_same_full; reflexivity).
  assert (H5 : Z.abs 1 <= m) by (change (Z.abs 1) with 1; lia).
  assert (H6 : Z.abs 0 <= m) by (change (Z.abs 0) with 0; lia).
  assert (H7 : 1 * 0 <= 0) by reflexivity.
  assert (H8 : Z.abs (a * 0 - m * 1) = m)
    by (replace (a * 0 - m * 1) with (- m) by ring; lia).
  destruct (modInverse_loop_double_spec fuel a m 1 0 0 1
              Hfuel H1 a_fits H2 H3 H4 eq_refl H5 H6 H7 H8)
    as (g & u & v & Hloop & Hg & Hco & Hu).
  unfold D.modInverse. rewrite Hloop.
  eexists. split; [reflexivity |].
  split; [apply mod_double_range; assumption |].
  rewrite mod_double_exact, mod_modulo by lia.
  rewrite Z.mul_mod_idemp_r by lia.
  rewrite <- Hg. symmetry. exact Hco.
Qed.

End Loop.

(** Iterations beyond those the loop needs change nothing. *)
Lemma modInverse_loop_double_mono (fuel : nat) :
  forall fuel' old_r r old_s s old_t t res,
    (fuel <= fuel')%nat ->
    D.modInverse_loop fuel old_r r old_s s old_t t = Some res ->
    D.modInverse_loop fuel' old_r r old_s s old_t t = Some res.
Proof.
  induction fuel as [| fuel IH];
    intros fuel' old_r r old_s s old_t t res Hle Hrun.
  - cbn [D.modInverse_loop] in Hrun.
    destruct (r =? 0) eqn:Hr; [| discriminate].
    destruct fuel'; cbn [D.modInverse_loop]; rewrite Hr; exact Hrun.
  - destruct fuel' as [| fuel']; [lia |].
    cbn [D.modInverse_loop] in *.
    destruct (r =? 0); [exact Hrun |].
    apply IH; [lia | exact Hrun].
Qed.

Lemma modInverse_double_mono (fuel fuel' : nat) (a m s : Z) :
  (fuel <= fuel')%nat ->
  D.modInverse fuel a m = Some s -> D.modInverse fuel' a m = Some s.
Proof.
  intros Hle. unfold D.modInverse.
  destruct (D.modInverse_loop fuel a m 1 0 0 1) as [[[g u] v] |] eqn:Hrun;
    [| discriminate].
  rewrite (modInverse_loop_double_mono _ _ _ _ _ _ _ _ _ Hle Hrun).
  auto.
Qed.

(** Any two runs that return agree. *)
Lemma modInverse_double_functional (fuel fuel' : nat) (a m s s' : Z) :
  D.modInverse fuel a m = Some s -> D.modInverse fuel' a m = Some s' ->
  s = s'.
Proof.
  intros H1 H2.
  apply (modInverse_double_mono _ (Nat.max fuel fuel')) in H1; [| lia].
  apply (modInverse_double_mono _ (Nat.max fuel fuel')) in H2; [| lia].
  congruence.
Qed.

(** X10 (binary64).  For [0 < m <= 2^52] and [|a| <= 2^52], whatever the
    gcd, [modInverse (a, m)] returns a residue [s] in [[0, m)] with [a * s]
    congruent to [gcd (a, m)]: an inverse exactly when the gcd is [1], and
    otherwise still a number, never a failure. *)
Theorem modInverse_double_gcd (a m : Z) (fuel : nat) :
  0 < m <= 2 ^ 52 ->
  Z.abs a <= 2 ^ 52 ->
  (Z.to_nat m < fuel)%nat ->
  exists s,
    D.modInverse fuel a m = Some s /\
    0 <= s < m /\
    (a * s) mod m = Z.gcd a m mod m.
Proof.
  intros [Hm Hb] Ha Hfuel.
  exact (modInverse_double_spec a m Hm Hb Ha fuel Hfuel).
Qed.

Lemma modInverse_double_gcd_witness :
  exists s,
    D.modInverse 5 6 4 = Some s /\ 0 <= s < 4 /\
    (6 * s) mod 4 = Z.gcd 6 4 mod 4.
Proof.
  apply (modInverse_double_gcd 6 4 5); [lia | | vm_compute; lia].
  change (Z.abs 6) with 6. lia.
Defined.

(** C8, as the code behaves.  For [0 < m <= 2^52], [|a| <= 2^52] and
    [gcd (a, m) = 1], [modInverse (a, m)] returns, and what it returns is the
    unique [s] in [[0, m)] with [a * s] congruent to [1] modulo [m], whatever
    the sign of the coefficient the loop ends with. *)
Theorem modInverse_double_unique_inverse (a m : Z) :
  0 < m <= 2 ^ 52 ->
  Z.abs a <= 2 ^ 52 ->
  Z.gcd a m = 1 ->
  exists s,
    (forall fuel, (Z.to_nat m < fuel)%nat -> D.modInverse fuel a m = Some s) /\
    (forall fuel s', D.modInverse fuel a m = Some s' -> s' = s) /\
    0 <= s < m /\
    (a * s) mod m = 1 mod m /\
    (forall s', 0 <= s' < m -> (a * s') mod m = 1 mod m -> s' = s).
Proof.
  intros [Hm Hb] Ha Hgcd.
  destruct (modInverse_double_spec a m Hm Hb Ha (S (Z.to_nat m)) (Nat.lt_succ_diag_r _))
    as (s & Hrun & Hrange & Hinv).
  rewrite Hgcd in Hinv.
  exists s. repeat split; try tauto.
  - intros fuel Hfuel.
    destruct (modInverse_double_spec a m Hm Hb Ha fuel Hfuel) as (s2 & Hrun2 & _).
    rewrite Hrun2. f_equal.
    exact (modInverse_double_functional _ _ _ _ _ _ Hrun2 Hrun).
  - intros fuel s' Hrun'.
    exact (modInverse_double_functional _ _ _ _ _ _ Hrun' Hrun).
  - intros s' Hs' Es'.
    exact (inverse_unique a m s' s Hm Hs' Hrange Es' Hinv).
Qed.

Lemma modInverse_double_unique_inverse_witness :
  exists s,
    (forall fuel, (Z.to_nat 13 < fuel)%nat -> D.modInverse fuel 4 13 = Some s) /\
    (forall fuel s', D.modInverse fuel 4 13 = Some s' -> s' = s) /\
    0 <= s < 13 /\
    (4 * s) mod 13 = 1 mod 13 /\
    (forall s', 0 <= s' < 13 -> (4 * s') mod 13 = 1 mod 13 -> s' = s).
Proof.
  apply (modInverse_double_unique_inverse 4 13); [lia | | reflexivity].
  change (Z.abs 4) with 4. lia.
Defined.

(** C8, as stated, at [a = 4] and [m = 2^53 - 1], which are coprime.  The
    loop ends with the coefficient [2^51]; [mod] then adds [m] to it, the sum
    [5 * 2^51 - 1] rounds to [5 * 2^51], and [modInverse] returns [2^51 + 1],
    for which [4 * s] is congruent to [5], not to [1]. *)
Lemma modInverse_double_not_inverse :
  Z.gcd 4 (2 ^ 53 - 1) = 1 /\
  D.modInverse 5 4 (2 ^ 53 - 1) = Some (2 ^ 51 + 1) /\
  (forall fuel s, D.modInverse fuel 4 (2 ^ 53 - 1) = Some s -> s = 2 ^ 51 + 1) /\
  (4 * (2 ^ 51 + 1)) mod (2 ^ 53 - 1) = 5 /\
  (4 * (2 ^ 51 + 1)) mod (2 ^ 53 - 1) <> 1 mod (2 ^ 53 - 1).
Proof.
  assert (E : D.modInverse 5 4 (2 ^ 53 - 1) = Some (2 ^ 51 + 1))
    by (vm_compute; reflexivity).
  split; [vm_compute; reflexivity | split; [exact E | split; [| split]]].
  - intros fuel s Hrun.
    exact (modInverse_double_functional _ _ _ _ _ _ Hrun E).
  - vm_compute. reflexivity.
  - vm_compute. discriminate.
Qed.

(** *** Where the rounded functions are the exact ones *)

Lemma abs_mul_le (a b ba bb : Z) :
  Z.abs a <= ba -> Z.abs b <= bb -> Z.abs (a * b) <= ba * bb.
Proof.
  intros Ha Hb. rewrite Z.abs_mul.
  apply Z.mul_le_mono_nonneg; try assumption; apply Z.abs_nonneg.
Qed.

Section FourTerms.

Variables (k p1 p2 p3 p4 : Z).
Hypothesis k_fits : 4 * k <= 2 ^ 53.
Hypotheses (b1 : Z.abs p1 <= k) (b2 : Z.abs p2 <= k)
           (b3 : Z.abs p3 <= k) (b4 : Z.abs p4 <= k).

Lemma sub_sub_sub_exact :
  D.sub (D.sub (D.sub p1 p2) p3) p4 = p1 - p2 - p3 - p4.
Proof.
  rewrite (sub_exact p1 p2) by lia.
  rewrite (sub_exact (p1 - p2) p3) by lia.
  apply sub_exact. lia.
Qed.

Lemma add_add_sub_exact :
  D.sub (D.add (D.add p1 p2) p3) p4 = p1 + p2 + p3 - p4.
Proof.
  rewrite (add_exact p1 p2) by lia.
  rewrite (add_exact (p1 + p2) p3) by lia.
  apply sub_exact. lia.
Qed.

Lemma sub_add_add_exact :
  D.add (D.add (D.sub p1 p2) p3) p4 = p1 - p2 + p3 + p4.
Proof.
  rewrite (sub_exact p1 p2) by lia.
  rewrite (add_exact (p1 - p2) p3) by lia.
  apply add_exact. lia.
Qed.

Lemma add_sub_add_exact :
  D.add (D.sub (D.add p1 p2) p3) p4 = p1 + p2 - p3 + p4.
Proof.
  rewrite (add_exact p1 p2) by lia.
  rewrite (sub_exact (p1 + p2) p3) by lia.
  apply add_exact. lia.
Qed.

Lemma add_add_add_exact :
  D.add (D.add (D.add p1 p2) p3) p4 = p1 + p2 + p3 + p4.
Proof.
  rewrite (add_exact p1 p2) by lia.
  rewrite (add_exact (p1 + p2) p3) by lia.
  apply add_exact. lia.
Qed.

End FourTerms.

(** Rewrites every rounded product of two components into the exact one. *)
Ltac exact_products c1 c2 Hk :=
  repeat match goal with
         | |- context [D.mul ?a ?b] =>
             rewrite (mul_exact a b)
               by (apply Z.le_trans with (c1 * c2);
                   [apply abs_mul_le; assumption | lia])
         end.

(** Rewrites the four rounded sums of [mulQ] into the exact ones. *)
Ltac exact_sums c1 c2 Hk :=
  rewrite (sub_sub_sub_exact (c1 * c2)), (add_add_sub_exact (c1 * c2)),
    (sub_add_add_exact (c1 * c2)), (add_sub_add_exact (c1 * c2))
    by (first [exact Hk | apply abs_mul_le; assumption]).

(** The products and sums of [mulQ] are exact when four products of
    components fit in [2^53]. *)
Lemma mulQ_double_unreduced (q1 q2 : Quaternion) (c1 c2 : Z) :
  D.within c1 q1 -> D.within c2 q2 -> 4 * (c1 * c2) <= 2 ^ 53 ->
  D.mulQ q1 q2 None = mulQ q1 q2 None.
Proof.
  intros (Hw1 & Hx1 & Hy1 & Hz1) (Hw2 & Hx2 & Hy2 & Hz2) Hk.
  unfold D.mulQ, mulQ. cbn [given].
  exact_products c1 c2 Hk. exact_sums c1 c2 Hk. reflexivity.
Qed.

Lemma mulQ_double_exact (q1 q2 : Quaternion) (c1 c2 m : Z) :
  D.within c1 q1 -> D.within c2 q2 -> 4 * (c1 * c2) <= 2 ^ 53 ->
  0 < m <= 2 ^ 52 ->
  D.mulQ q1 q2 (Some m) = mulQ q1 q2 (Some m).
Proof.
  intros (Hw1 & Hx1 & Hy1 & Hz1) (Hw2 & Hx2 & Hy2 & Hz2) Hk Hm.
  unfold D.mulQ, mulQ. rewrite given_nonzero by lia.
  exact_products c1 c2 Hk. exact_sums c1 c2 Hk.
  rewrite !mod_double_exact by lia. reflexivity.
Qed.

Lemma normSqQ_double_unreduced (q : Quaternion) (c : Z) :
  D.within c q -> 4 * (c * c) <= 2 ^ 53 ->
  D.normSqQ q None = normSqQ q None.
Proof.
  intros (Hw & Hx & Hy & Hz) Hk.
  unfold D.normSqQ, normSqQ. cbn [given].
  exact_products c c Hk.
  apply (add_add_add_exact (c * c)); try exact Hk; apply abs_mul_le; assumption.
Qed.

Lemma normSqQ_double_exact (q : Quaternion) (c m : Z) :
  D.within c q -> 4 * (c * c) <= 2 ^ 53 -> 0 < m <= 2 ^ 52 ->
  D.normSqQ q (Some m) = normSqQ q (Some m).
Proof.
  intros (Hw & Hx & Hy & Hz) Hk Hm.
  unfold D.normSqQ, normSqQ. rewrite given_nonzero by lia.
  exact_products c c Hk.
  rewrite (add_add_add_exact (c * c))
    by (first [exact Hk | apply abs_mul_le; assumption]).
  apply mod_double_exact; lia.
Qed.

Lemma conjugateQ_double_exact (q : Quaternion) (modulus : option Z) :
  (forall m, given modulus = Some m -> Z.abs m <= 2 ^ 52) ->
  D.conjugateQ q modulus = conjugateQ q modulus.
Proof.
  intros Hm. unfold D.conjugateQ, conjugateQ.
  destruct (given modulus) as [m |] eqn:Hg; [| reflexivity].
  pose proof (given_some _ _ Hg). specialize (Hm m eq_refl).
  rewrite !mod_double_exact by assumption. reflexivity.
Qed.

Lemma addQ_double_exact (q1 q2 : Quaternion) (c1 c2 : Z) (modulus : option Z) :
  D.within c1 q1 -> D.within c2 q2 -> c1 + c2 <= 2 ^ 53 ->
  (forall m, given modulus = Some m -> Z.abs m <= 2 ^ 52) ->
  D.addQ q1 q2 modulus = addQ q1 q2 modulus.
Proof.
  intros (Hw1 & Hx1 & Hy1 & Hz1) (Hw2 & Hx2 & Hy2 & Hz2) Hk Hm.
  unfold D.addQ, addQ.
  rewrite !add_exact by lia.
  destruct (given modulus) as [m |] eqn:Hg; [| reflexivity].
  pose proof (given_some _ _ Hg). specialize (Hm m eq_refl).
  rewrite !mod_double_exact by assumption. reflexivity.
Qed.

(** Reduced quaternions are within the modulus. *)
Lemma inRange_within (m : Z) (q : Quaternion) : inRange m q -> D.within m q.
Proof. unfold inRange, D.within. lia. Qed.

Lemma within_le (c c' : Z) (q : Quaternion) :
  c <= c' -> D.within c q -> D.within c' q.
Proof. unfold D.within. lia. Qed.

(** *** [invQ] *)

Lemma conjugateQ_inRange (q : Quaternion) (m : Z) :
  0 < m -> inRange m (conjugateQ q (Some m)).
Proof.
  intros Hm. unfold conjugateQ, inRange. rewrite given_nonzero by lia. cbn.
  repeat split; apply mod_range; assumption.
Qed.

Lemma addQ_inRange (q1 q2 : Quaternion) (m : Z) :
  0 < m -> inRange m (addQ q1 q2 (Some m)).
Proof.
  intros Hm. unfold addQ, inRange. rewrite given_nonzero by lia. cbn.
  repeat split; apply mod_range; assumption.
Qed.

Lemma invQ_inRange (q qInv : Quaternion) (m : Z) :
  0 < m -> invQ q (Some m) = Inverse qInv -> inRange m qInv.
Proof.
  intros Hm. unfold invQ.
  destruct (normSqQ q (Some m) =? 0); [discriminate |].
  rewrite given_nonzero by lia.
  intros E; inversion E; subst qInv. unfold inRange; cbn.
  repeat split; apply mod_range; assumption.
Qed.

(** On a norm that is zero or coprime with the modulus, and with more
    iterations allowed than [m], the rounded [invQ] is the exact one as long
    as the squares of the components and the square of the modulus fit. *)
Lemma invQ_double_exact (fuel : nat) (q : Quaternion) (c m : Z) :
  D.within c q -> 4 * (c * c) <= 2 ^ 53 ->
  0 < m -> m * m <= 2 ^ 53 ->
  normSqQ q (Some m) = 0 \/ Z.gcd (normSqQ q (Some m)) m = 1 ->
  (Z.to_nat m < fuel)%nat ->
  D.invQ fuel q (Some m) = Some (invQ q (Some m)).
Proof.
  intros Hq Hc Hm Hmm Hn Hfuel.
  assert (Hm52 : m <= 2 ^ 52) by nia.
  unfold D.invQ. rewrite (normSqQ_double_exact q c m Hq Hc) by lia.
  destruct (Z.eqb_spec (normSqQ q (Some m)) 0) as [E | E].
  - rewrite (invQ_zero_norm _ _ E). reflexivity.
  - destruct Hn as [Hn | Hgcd]; [contradiction |].
    rewrite given_nonzero by lia.
    assert (Hrange : 0 <= normSqQ q (Some m) < m)
      by (unfold normSqQ; rewrite given_nonzero by lia; apply mod_range; lia).
    destruct (modInverse_double_spec (normSqQ q (Some m)) m Hm Hm52
                ltac:(lia) fuel Hfuel) as (s & Hrun & Hs & Hinv).
    rewrite Hgcd in Hinv.
    assert (Es : s = modInverse (normSqQ q (Some m)) m).
    { apply (inverse_unique (normSqQ q (Some m)) m); try assumption.
      - apply modInverse_range; assumption.
      - apply modInverse_inverse; assumption. }
    rewrite Hrun, Es.
    rewrite conjugateQ_double_exact
      by (intros m' Hg; rewrite given_nonzero in Hg by lia;
          inversion Hg; subst; lia).
    rewrite invQ_unfold by (lia || assumption).
    pose proof (conjugateQ_inRange q m Hm) as (Cw & Cx & Cy & Cz).
    pose proof (modInverse_range (normSqQ q (Some m)) m Hm) as Hi.
    unfold conjugateQ in *. rewrite given_nonzero in * by lia.
    cbn [w x y z] in *.
    rewrite !mul_exact
      by (apply Z.le_trans with (m * m); [apply abs_mul_le; lia | exact Hmm]).
    rewrite !mod_double_exact by lia. reflexivity.
Qed.

Lemma invQ_double_functional
    (fuel fuel' : nat) (q : Quaternion) (modulus : option Z) (r r' : InvResult) :
  D.invQ fuel q modulus = Some r -> D.invQ fuel' q modulus = Some r' -> r = r'.
Proof.
  unfold D.invQ.
  destruct (D.normSqQ q modulus =? 0); [congruence |].
  destruct (given modulus) as [m |]; [| congruence].
  destruct (D.modInverse fuel _ m) as [s |] eqn:H1; [| discriminate].
  destruct (D.modInverse fuel' _ m) as [s' |] eqn:H2; [| discriminate].
  rewrite (modInverse_double_functional _ _ _ _ _ _ H1 H2). congruence.
Qed.

(** C3, as the code behaves.  For every prime modulus [m <= 2^25] and every
    quaternion [q] with components at most [2^25] in absolute value and
    [normSqQ q m <> 0], [invQ q m] returns a quaternion (not [null]) whose
    product with [q], on either side, reduced modulo [m], is
    [(1, 0, 0, 0)]. *)
Theorem invQ_double_is_two_sided_inverse (q : Quaternion) (m : Z) :
  prime m ->
  m <= 2 ^ 25 ->
  D.within (2 ^ 25) q ->
  D.normSqQ q (Some m) <> 0 ->
  exists qInv,
    (forall fuel, (Z.to_nat m < fuel)%nat ->
                  D.invQ fuel q (Some m) = Some (Inverse qInv)) /\
    (forall fuel r, D.invQ fuel q (Some m) = Some r -> r = Inverse qInv) /\
    D.mulQ q qInv (Some m) = mkQ 1 0 0 0 /\
    D.mulQ qInv q (Some m) = mkQ 1 0 0 0.
Proof.
  intros Hp Hb Hq Hn.
  assert (Hm : 1 < m) by (destruct Hp; assumption).
  assert (H25 : 2 ^ 25 = 33554432) by reflexivity.
  assert (H53 : 2 ^ 53 = 9007199254740992) by reflexivity.
  assert (H52 : 2 ^ 52 = 4503599627370496) by reflexivity.
  rewrite (normSqQ_double_exact q (2 ^ 25) m Hq) in Hn by lia.
  destruct (invQ_is_two_sided_inverse q m Hp Hn) as (qInv & Hinv & Hr & Hl).
  pose proof (prime_inverse_coprime q qInv m Hp Hinv) as Hgcd.
  assert (Hrun : forall fuel, (Z.to_nat m < fuel)%nat ->
                   D.invQ fuel q (Some m) = Some (Inverse qInv)).
  { intros fuel Hfuel. rewrite <- Hinv.
    assert (Hc : 4 * (2 ^ 25 * 2 ^ 25) <= 2 ^ 53) by lia.
    assert (Hmm : m * m <= 2 ^ 53) by nia.
    exact (invQ_double_exact fuel q (2 ^ 25) m Hq Hc ltac:(lia) Hmm
             (or_intror Hgcd) Hfuel). }
  pose proof (within_le m (2 ^ 25) qInv Hb
                (inRange_within m qInv (invQ_inRange q qInv m ltac:(lia) Hinv)))
    as HqInv.
  exists qInv. split; [exact Hrun | split; [| split]].
  - intros fuel r Hr'.
    exact (invQ_double_functional _ _ _ _ _ _ Hr' (Hrun _ (Nat.lt_succ_diag_r _))).
  - rewrite (mulQ_double_exact q qInv (2 ^ 25) (2 ^ 25) m) by (assumption || lia).
    exact Hr.
  - rewrite (mulQ_double_exact qInv q (2 ^ 25) (2 ^ 25) m) by (assumption || lia).
    exact Hl.
Qed.

Lemma invQ_double_is_two_sided_inverse_witness :
  exists qInv,
    (forall fuel, (Z.to_nat 13 < fuel)%nat ->
                  D.invQ fuel (mkQ 2 1 0 1) (Some 13) = Some (Inverse qInv)) /\
    (forall fuel r, D.invQ fuel (mkQ 2 1 0 1) (Some 13) = Some r ->
                    r = Inverse qInv) /\
    D.mulQ (mkQ 2 1 0 1) qInv (Some 13) = mkQ 1 0 0 0 /\
    D.mulQ qInv (mkQ 2 1 0 1) (Some 13) = mkQ 1 0 0 0.
Proof.
  apply (invQ_double_is_two_sided_inverse (mkQ 2 1 0 1) 13).
  - exact prime_13.
  - vm_compute. discriminate.
  - unfold D.within; cbn. lia.
  - vm_compute. discriminate.
Defined.

(** C3, as stated, at the prime [13] and [q = (2^27 + 1, 1, 0, 0)].  The
    square [(2^27 + 1)^2] is [2^54 + 2^28 + 1], which rounds to
    [2^54 + 2^28], and adding [1] changes nothing: the code finds the norm
    [2] where the exact one is [4].  [invQ] then returns [(11, 6, 0, 0)],
    whose product with [q] is [(2, 0, 0, 0)]. *)
Lemma invQ_double_not_inverse :
  prime 13 /\
  D.normSqQ (mkQ (2 ^ 27 + 1) 1 0 0) (Some 13) = 2 /\
  (forall fuel r,
      D.invQ fuel (mkQ (2 ^ 27 + 1) 1 0 0) (Some 13) = Some r ->
      r = Inverse (mkQ 11 6 0 0)) /\
  D.invQ 14 (mkQ (2 ^ 27 + 1) 1 0 0) (Some 13) = Some (Inverse (mkQ 11 6 0 0)) /\
  D.mulQ (mkQ (2 ^ 27 + 1) 1 0 0) (mkQ 11 6 0 0) (Some 13) = mkQ 2 0 0 0 /\
  D.mulQ (mkQ (2 ^ 27 + 1) 1 0 0) (mkQ 11 6 0 0) (Some 13) <> mkQ 1 0 0 0.
Proof.
  assert (E : D.invQ 14 (mkQ (2 ^ 27 + 1) 1 0 0) (Some 13)
              = Some (Inverse (mkQ 11 6 0 0))) by (vm_compute; reflexivity).
  split; [exact prime_13 |].
  split; [vm_compute; reflexivity |].
  split; [intros fuel r Hr; exact (invQ_double_functional _ _ _ _ _ _ Hr E) |].
  split; [exact E |].
  split; [vm_compute; reflexivity | vm_compute; discriminate].
Qed.

(** The same happens with small components and a large modulus: at
    [m = 2^31 - 1] and [q = (1, 2, 0, 0)] the norm [5] is coprime with [m],
    and the product of [q] with what [invQ] returns is
    [(207, 2147483544, 0, 0)]. *)
Example invQ_double_large_modulus :
  Z.gcd (D.normSqQ (mkQ 1 2 0 0) (Some (2 ^ 31 - 1))) (2 ^ 31 - 1) = 1 /\
  D.invQ 40 (mkQ 1 2 0 0) (Some (2 ^ 31 - 1))
  = Some (Inverse (mkQ 858993459 429496626 0 0)) /\
  D.mulQ (mkQ 1 2 0 0) (mkQ 858993459 429496626 0 0) (Some (2 ^ 31 - 1))
  = mkQ 207 2147483544 0 0.
Proof. repeat split; vm_compute; reflexivity. Qed.

(** *** The ring laws on binary64 numbers *)

(** X1 (binary64).  For a negative modulus [m >= -2^52], [mod (n, m)] lies
    in [(m, 0]] and differs from [n] by a multiple of [m]: the result follows
    the sign of the modulus. *)
Theorem mod_double_negative_modulus (n m : Z) :
  - 2 ^ 52 <= m < 0 ->
  m < D.mod_ n m <= 0 /\ (exists k, D.mod_ n m = n + k * m).
Proof.
  intros Hm. rewrite mod_double_exact by lia.
  rewrite mod_modulo_neg by lia. split.
  - apply Z.mod_neg_bound; lia.
  - exists (- (n / m)). rewrite Z.mod_eq by lia. ring.
Qed.

Lemma mod_double_negative_modulus_witness :
  -3 < D.mod_ 5 (-3) <= 0 /\ (exists k, D.mod_ 5 (-3) = 5 + k * -3).
Proof. apply (mod_double_negative_modulus 5 (-3)). lia. Defined.

Lemma mod_abs_bound (n m : Z) : m <> 0 -> Z.abs (mod_ n m) <= Z.abs m.
Proof.
  intros Hm. rewrite mod_modulo_any by assumption.
  destruct (Z_lt_ge_dec 0 m).
  - pose proof (Z.mod_pos_bound n m ltac:(lia)). lia.
  - pose proof (Z.mod_neg_bound n m ltac:(lia)). lia.
Qed.

Lemma abs_add_le (a b c : Z) :
  Z.abs a <= c -> Z.abs b <= c -> Z.abs (a + b) <= 2 * c.
Proof. lia. Qed.

Lemma addQ_within (a b : Quaternion) (c : Z) (modulus : option Z) :
  D.within c a -> D.within c b ->
  (forall m, given modulus = Some m -> Z.abs m <= c) ->
  D.within (2 * c) (addQ a b modulus).
Proof.
  intros (A1 & A2 & A3 & A4) (B1 & B2 & B3 & B4) Hm.
  unfold addQ, D.within.
  destruct (given modulus) as [m |] eqn:Hg; cbn [w x y z].
  - pose proof (given_some _ _ Hg) as Hnz. specialize (Hm m eq_refl).
    assert (Hc : Z.abs m <= 2 * c) by lia.
    clear A1 A2 A3 A4 B1 B2 B3 B4.
    repeat split;
      (eapply Z.le_trans; [apply mod_abs_bound; exact Hnz | exact Hc]).
  - repeat split; apply abs_add_le; assumption.
Qed.

(** X2 (binary64).  [addQ] is commutative; and it is associative, with or
    without a modulus, when the components and the modulus are at most
    [2^51] in absolute value, so that no sum is rounded. *)
Theorem addQ_double_comm_assoc (a b c : Quaternion) (modulus : option Z) :
  D.within (2 ^ 51) a -> D.within (2 ^ 51) b -> D.within (2 ^ 51) c ->
  (forall m, given modulus = Some m -> Z.abs m <= 2 ^ 51) ->
  D.addQ a b modulus = D.addQ b a modulus /\
  D.addQ (D.addQ a b modulus) c modulus
  = D.addQ a (D.addQ b c modulus) modulus.
Proof.
  intros Ha Hb Hc Hm.
  assert (Hm' : forall m, given modulus = Some m -> Z.abs m <= 2 ^ 52)
    by (intros m Hg; specialize (Hm m Hg); lia).
  pose proof (addQ_within a b _ modulus Ha Hb Hm) as Hab.
  pose proof (addQ_within b c _ modulus Hb Hc Hm) as Hbc.
  rewrite (addQ_double_exact a b (2 ^ 51) (2 ^ 51)) by (assumption || lia).
  rewrite (addQ_double_exact b a (2 ^ 51) (2 ^ 51)) by (assumption || lia).
  rewrite (addQ_double_exact b c (2 ^ 51) (2 ^ 51)) by (assumption || lia).
  rewrite (addQ_double_exact _ c (2 * 2 ^ 51) (2 ^ 51)) by (assumption || lia).
  rewrite (addQ_double_exact a _ (2 ^ 51) (2 * 2 ^ 51)) by (assumption || lia).
  apply addQ_comm_assoc.
Qed.

Lemma addQ_double_comm_assoc_witness :
  D.addQ (mkQ 7 8 9 10) (mkQ 11 12 13 14) (Some 13)
  = D.addQ (mkQ 11 12 13 14) (mkQ 7 8 9 10) (Some 13) /\
  D.addQ (D.addQ (mkQ 7 8 9 10) (mkQ 11 12 13 14) (Some 13)) (mkQ 1 2 3 4)
         (Some 13)
  = D.addQ (mkQ 7 8 9 10) (D.addQ (mkQ 11 12 13 14) (mkQ 1 2 3 4) (Some 13))
           (Some 13).
Proof.
  apply (addQ_double_comm_assoc (mkQ 7 8 9 10) (mkQ 11 12 13 14) (mkQ 1 2 3 4)
           (Some 13));
    try (unfold D.within; cbn; lia).
  intros m Hg. cbn in Hg. inversion Hg; subst. cbn. lia.
Defined.

Section Reduced.

Variable m : Z.
Hypothesis m_pos : 0 < m.
Hypothesis m_fits : m <= 2 ^ 25.

Local Abbreviation M := (Some m).
Local Abbreviation small := (D.within (2 ^ 25)).

Lemma small_mulQ (a b : Quaternion) : small (mulQ a b M).
Proof.
  apply (within_le m); [exact m_fits |].
  apply inRange_within, mulQ_inRange. exact m_pos.
Qed.

Lemma small_addQ (a b : Quaternion) : small (addQ a b M).
Proof.
  apply (within_le m); [exact m_fits |].
  apply inRange_within, addQ_inRange. exact m_pos.
Qed.

Lemma small_conjugateQ (a : Quaternion) : small (conjugateQ a M).
Proof.
  apply (within_le m); [exact m_fits |].
  apply inRange_within, conjugateQ_inRange. exact m_pos.
Qed.

Lemma small_invQ (a aInv : Quaternion) :
  invQ a M = Inverse aInv -> small aInv.
Proof.
  intros Hinv. apply (within_le m); [exact m_fits |].
  apply inRange_within. exact (invQ_inRange a aInv m m_pos Hinv).
Qed.

Lemma mulQ_small_exact (a b : Quaternion) :
  small a -> small b -> D.mulQ a b M = mulQ a b M.
Proof.
  intros Ha Hb.
  apply (mulQ_double_exact a b (2 ^ 25) (2 ^ 25) m Ha Hb); lia.
Qed.

Lemma addQ_small_exact (a b : Quaternion) :
  small a -> small b -> D.addQ a b M = addQ a b M.
Proof.
  intros Ha Hb.
  apply (addQ_double_exact a b (2 ^ 25) (2 ^ 25) M Ha Hb); [lia |].
  intros m' Hg. rewrite given_nonzero in Hg by lia. inversion Hg; subst. lia.
Qed.

Lemma conjugateQ_small_exact (a : Quaternion) :
  D.conjugateQ a M = conjugateQ a M.
Proof.
  apply conjugateQ_double_exact.
  intros m' Hg. rewrite given_nonzero in Hg by lia. inversion Hg; subst. lia.
Qed.

Lemma normSqQ_small_exact (a : Quaternion) :
  small a -> D.normSqQ a M = normSqQ a M.
Proof.
  intros Ha. apply (normSqQ_double_exact a (2 ^ 25) m Ha); lia.
Qed.

Lemma invQ_small_exact (fuel : nat) (a : Quaternion) :
  small a ->
  normSqQ a M = 0 \/ Z.gcd (normSqQ a M) m = 1 ->
  (Z.to_nat m < fuel)%nat ->
  D.invQ fuel a M = Some (invQ a M).
Proof.
  intros Ha Hn Hfuel.
  apply (invQ_double_exact fuel a (2 ^ 25) m Ha); try assumption; [lia | nia].
Qed.


End Reduced.

(** X3 (binary64).  For a modulus [0 < m <= 2^25] and components at most
    [2^25] in absolute value, [mulQ] is associative:
    [mulQ (mulQ a b m) c m = mulQ a (mulQ b c m) m]. *)
Theorem mulQ_double_assoc (a b c : Quaternion) (m : Z) :
  0 < m <= 2 ^ 25 ->
  D.within (2 ^ 25) a -> D.within (2 ^ 25) b -> D.within (2 ^ 25) c ->
  D.mulQ (D.mulQ a b (Some m)) c (Some m)
  = D.mulQ a (D.mulQ b c (Some m)) (Some m).
Proof.
  intros [Hm Hb'] Ha Hb Hc.
  rewrite (mulQ_small_exact m Hm Hb' a b Ha Hb).
  rewrite (mulQ_small_exact m Hm Hb' b c Hb Hc).
  rewrite (mulQ_small_exact m Hm Hb' _ c (small_mulQ m Hm Hb' a b) Hc).
  rewrite (mulQ_small_exact m Hm Hb' a _ Ha (small_mulQ m Hm Hb' b c)).
  apply mulQ_assoc.
Qed.

Lemma mulQ_double_assoc_witness :
  D.mulQ (D.mulQ (mkQ 2 1 0 1) (mkQ 1 3 1 0) (Some 13)) (mkQ 1 2 3 4) (Some 13)
  = D.mulQ (mkQ 2 1 0 1) (D.mulQ (mkQ 1 3 1 0) (mkQ 1 2 3 4) (Some 13))
           (Some 13).
Proof.
  apply (mulQ_double_assoc (mkQ 2 1 0 1) (mkQ 1 3 1 0) (mkQ 1 2 3 4) 13);
    [lia | | |]; unfold D.within; cbn; lia.
Defined.

(** X4 (binary64).  Under the same bounds [mulQ] distributes over [addQ] on
    both sides. *)
Theorem mulQ_double_addQ_distr (a b c : Quaternion) (m : Z) :
  0 < m <= 2 ^ 25 ->
  D.within (2 ^ 25) a -> D.within (2 ^ 25) b -> D.within (2 ^ 25) c ->
  D.mulQ a (D.addQ b c (Some m)) (Some m)
  = D.addQ (D.mulQ a b (Some m)) (D.mulQ a c (Some m)) (Some m) /\
  D.mulQ (D.addQ a b (Some m)) c (Some m)
  = D.addQ (D.mulQ a c (Some m)) (D.mulQ b c (Some m)) (Some m).
Proof.
  intros [Hm Hb'] Ha Hb Hc.
  rewrite (addQ_small_exact m Hm Hb' b c Hb Hc).
  rewrite (addQ_small_exact m Hm Hb' a b Ha Hb).
  rewrite (mulQ_small_exact m Hm Hb' a b Ha Hb).
  rewrite (mulQ_small_exact m Hm Hb' a c Ha Hc).
  rewrite (mulQ_small_exact m Hm Hb' b c Hb Hc).
  rewrite (mulQ_small_exact m Hm Hb' a _ Ha (small_addQ m Hm Hb' b c)).
  rewrite (mulQ_small_exact m Hm Hb' _ c (small_addQ m Hm Hb' a b) Hc).
  rewrite (addQ_small_exact m Hm Hb' _ _ (small_mulQ m Hm Hb' a b)
             (small_mulQ m Hm Hb' a c)).
  rewrite (addQ_small_exact m Hm Hb' _ _ (small_mulQ m Hm Hb' a c)
             (small_mulQ m Hm Hb' b c)).
  apply mulQ_addQ_distr.
Qed.

Lemma mulQ_double_addQ_distr_witness :
  D.mulQ (mkQ 2 1 0 1) (D.addQ (mkQ 1 3 1 0) (mkQ 1 2 3 4) (Some 13)) (Some 13)
  = D.addQ (D.mulQ (mkQ 2 1 0 1) (mkQ 1 3 1 0) (Some 13))
           (D.mulQ (mkQ 2 1 0 1) (mkQ 1 2 3 4) (Some 13)) (Some 13) /\
  D.mulQ (D.addQ (mkQ 2 1 0 1) (mkQ 1 3 1 0) (Some 13)) (mkQ 1 2 3 4) (Some 13)
  = D.addQ (D.mulQ (mkQ 2 1 0 1) (mkQ 1 2 3 4) (Some 13))
           (D.mulQ (mkQ 1 3 1 0) (mkQ 1 2 3 4) (Some 13)) (Some 13).
Proof.
  apply (mulQ_double_addQ_distr (mkQ 2 1 0 1) (mkQ 1 3 1 0) (mkQ 1 2 3 4) 13);
    [lia | | |]; unfold D.within; cbn; lia.
Defined.

(** X5 (binary64).  For [0 < m <= 2^51] and a quaternion [q] whose
    components are already in [[0, m)], [(1, 0, 0, 0)] is a unit on both
    sides. *)
Theorem mulQ_double_one (q : Quaternion) (m : Z) :
  0 < m <= 2 ^ 51 -> inRange m q ->
  D.mulQ (mkQ 1 0 0 0) q (Some m) = q /\ D.mulQ q (mkQ 1 0 0 0) (Some m) = q.
Proof.
  intros [Hm Hb] Hq.
  assert (H1 : D.within 1 (mkQ 1 0 0 0)) by (unfold D.within; cbn; lia).
  pose proof (inRange_within m q Hq) as Hq'.
  rewrite (mulQ_double_exact _ q 1 m m H1 Hq') by lia.
  rewrite (mulQ_double_exact q _ m 1 m Hq' H1) by lia.
  apply mulQ_one; assumption.
Qed.

Lemma mulQ_double_one_witness :
  D.mulQ (mkQ 1 0 0 0) (mkQ 2 1 0 12) (Some 13) = mkQ 2 1 0 12 /\
  D.mulQ (mkQ 2 1 0 12) (mkQ 1 0 0 0) (Some 13) = mkQ 2 1 0 12.
Proof.
  apply (mulQ_double_one (mkQ 2 1 0 12) 13); [lia |].
  unfold inRange; cbn. lia.
Defined.

(** X7 (binary64).  For [0 < m <= 2^25] and components at most [2^25] in
    absolute value, conjugating twice gives the quaternion back reduced
    modulo [m], and the conjugate of a product is the product of the
    conjugates in the opposite order. *)
Theorem conjugateQ_double_involutive_antimultiplicative
    (a b : Quaternion) (m : Z) :
  0 < m <= 2 ^ 25 ->
  D.within (2 ^ 25) a -> D.within (2 ^ 25) b ->
  D.conjugateQ (D.conjugateQ a (Some m)) (Some m)
  = mkQ (D.mod_ (w a) m) (D.mod_ (x a) m) (D.mod_ (y a) m) (D.mod_ (z a) m) /\
  D.conjugateQ (D.mulQ a b (Some m)) (Some m)
  = D.mulQ (D.conjugateQ b (Some m)) (D.conjugateQ a (Some m)) (Some m).
Proof.
  intros [Hm Hb'] Ha Hb.
  rewrite !(conjugateQ_small_exact m Hm Hb').
  rewrite (mulQ_small_exact m Hm Hb' a b Ha Hb).
  rewrite (mulQ_small_exact m Hm Hb' _ _ (small_conjugateQ m Hm Hb' b)
             (small_conjugateQ m Hm Hb' a)).
  rewrite !mod_double_exact by lia.
  destruct (conjugateQ_involutive_antimultiplicative a b (Some m)) as [Hi Ha'].
  split; [| exact Ha'].
  rewrite Hi. unfold addQ. rewrite given_nonzero by lia. cbn [w x y z].
  rewrite !Z.add_0_r. reflexivity.
Qed.

Lemma conjugateQ_double_involutive_antimultiplicative_witness :
  D.conjugateQ (D.conjugateQ (mkQ 15 (-1) 0 1) (Some 13)) (Some 13)
  = mkQ (D.mod_ 15 13) (D.mod_ (-1) 13) (D.mod_ 0 13) (D.mod_ 1 13) /\
  D.conjugateQ (D.mulQ (mkQ 15 (-1) 0 1) (mkQ 1 3 1 0) (Some 13)) (Some 13)
  = D.mulQ (D.conjugateQ (mkQ 1 3 1 0) (Some 13))
           (D.conjugateQ (mkQ 15 (-1) 0 1) (Some 13)) (Some 13).
Proof.
  apply (conjugateQ_double_involutive_antimultiplicative
           (mkQ 15 (-1) 0 1) (mkQ 1 3 1 0) 13);
    [lia | |]; unfold D.within; cbn; lia.
Defined.

(** X8 (binary64).  Under the same bounds a quaternion multiplied by its
    conjugate, in either order, is the scalar quaternion
    [(normSqQ q m, 0, 0, 0)]. *)
Theorem mulQ_double_conjugateQ_norm (q : Quaternion) (m : Z) :
  0 < m <= 2 ^ 25 ->
  D.within (2 ^ 25) q ->
  D.mulQ q (D.conjugateQ q (Some m)) (Some m)
  = mkQ (D.normSqQ q (Some m)) 0 0 0 /\
  D.mulQ (D.conjugateQ q (Some m)) q (Some m)
  = mkQ (D.normSqQ q (Some m)) 0 0 0.
Proof.
  intros [Hm Hb'] Hq.
  rewrite !(conjugateQ_small_exact m Hm Hb').
  rewrite (mulQ_small_exact m Hm Hb' q _ Hq (small_conjugateQ m Hm Hb' q)).
  rewrite (mulQ_small_exact m Hm Hb' _ q (small_conjugateQ m Hm Hb' q) Hq).
  rewrite (normSqQ_small_exact m Hm Hb' q Hq).
  apply mulQ_conjugateQ_norm.
Qed.

Lemma mulQ_double_conjugateQ_norm_witness :
  D.mulQ (mkQ 2 1 0 1) (D.conjugateQ (mkQ 2 1 0 1) (Some 13)) (Some 13)
  = mkQ (D.normSqQ (mkQ 2 1 0 1) (Some 13)) 0 0 0 /\
  D.mulQ (D.conjugateQ (mkQ 2 1 0 1) (Some 13)) (mkQ 2 1 0 1) (Some 13)
  = mkQ (D.normSqQ (mkQ 2 1 0 1) (Some 13)) 0 0 0.
Proof.
  apply (mulQ_double_conjugateQ_norm (mkQ 2 1 0 1) 13); [lia |].
  unfold D.within; cbn. lia.
Defined.

Lemma normSqQ_range (q : Quaternion) (m : Z) :
  0 < m -> 0 <= normSqQ q (Some m) < m.
Proof.
  intros Hm. unfold normSqQ. rewrite given_nonzero by lia.
  apply mod_range; assumption.
Qed.

(** X9 (binary64).  Under the same bounds the squared norm is multiplicative:
    the norm of [mulQ a b m] is the product of the norms of [a] and [b],
    reduced modulo [m]. *)
Theorem normSqQ_double_mulQ (a b : Quaternion) (m : Z) :
  0 < m <= 2 ^ 25 ->
  D.within (2 ^ 25) a -> D.within (2 ^ 25) b ->
  D.normSqQ (D.mulQ a b (Some m)) (Some m)
  = D.mod_ (D.mul (D.normSqQ a (Some m)) (D.normSqQ b (Some m))) m.
Proof.
  intros [Hm Hb'] Ha Hb.
  rewrite (mulQ_small_exact m Hm Hb' a b Ha Hb).
  rewrite (normSqQ_small_exact m Hm Hb' _ (small_mulQ m Hm Hb' a b)).
  rewrite (normSqQ_small_exact m Hm Hb' a Ha).
  rewrite (normSqQ_small_exact m Hm Hb' b Hb).
  pose proof (normSqQ_range a m Hm) as Na.
  pose proof (normSqQ_range b m Hm) as Nb.
  rewrite mul_exact
    by (apply Z.le_trans with (2 ^ 25 * 2 ^ 25); [apply abs_mul_le; lia | lia]).
  rewrite mod_double_exact by lia.
  apply normSqQ_mulQ_reduced. lia.
Qed.

Lemma normSqQ_double_mulQ_witness :
  D.normSqQ (D.mulQ (mkQ 2 1 0 1) (mkQ 1 3 1 0) (Some 13)) (Some 13)
  = D.mod_ (D.mul (D.normSqQ (mkQ 2 1 0 1) (Some 13))
                  (D.normSqQ (mkQ 1 3 1 0) (Some 13))) 13.
Proof.
  apply (normSqQ_double_mulQ (mkQ 2 1 0 1) (mkQ 1 3 1 0) 13);
    [lia | |]; unfold D.within; cbn; lia.
Defined.

(** X12 (binary64).  For any modulus [1 < m <= 2^25], prime or composite,
    and components at most [2^25] in absolute value, if the squared norm of
    [q] is coprime with [m] then [invQ q m] returns a quaternion whose
    product with [q], on both sides, is [(1, 0, 0, 0)]. *)
Theorem invQ_double_coprime_inverse (q : Quaternion) (m : Z) (fuel : nat) :
  1 < m <= 2 ^ 25 ->
  D.within (2 ^ 25) q ->
  Z.gcd (D.normSqQ q (Some m)) m = 1 ->
  (Z.to_nat m < fuel)%nat ->
  exists qInv,
    D.invQ fuel q (Some m) = Some (Inverse qInv) /\
    D.mulQ q qInv (Some m) = mkQ 1 0 0 0 /\
    D.mulQ qInv q (Some m) = mkQ 1 0 0 0.
Proof.
  intros [Hm Hb'] Hq Hgcd Hfuel.
  assert (Hm0 : 0 < m) by lia.
  rewrite (normSqQ_small_exact m Hm0 Hb' q Hq) in Hgcd.
  destruct (invQ_coprime_inverse q m Hm Hgcd) as (qInv & Hinv & Hr & Hl).
  exists qInv.
  rewrite (invQ_small_exact m Hm0 Hb' fuel q Hq (or_intror Hgcd) Hfuel).
  pose proof (small_invQ m Hm0 Hb' q qInv Hinv) as Hi.
  rewrite (mulQ_small_exact m Hm0 Hb' q qInv Hq Hi).
  rewrite (mulQ_small_exact m Hm0 Hb' qInv q Hi Hq).
  rewrite Hinv. auto.
Qed.

Lemma invQ_double_coprime_inverse_witness :
  exists qInv,
    D.invQ 5 (mkQ 1 1 1 0) (Some 4) = Some (Inverse qInv) /\
    D.mulQ (mkQ 1 1 1 0) qInv (Some 4) = mkQ 1 0 0 0 /\
    D.mulQ qInv (mkQ 1 1 1 0) (Some 4) = mkQ 1 0 0 0.
Proof.
  apply (invQ_double_coprime_inverse (mkQ 1 1 1 0) 4 5);
    [lia | unfold D.within; cbn; lia | reflexivity | vm_compute; lia].
Defined.

(** The norm of an inverse is coprime with the modulus. *)
Lemma inverse_norm_coprime (q qInv : Quaternion) (m : Z) :
  1 < m -> mulQ q qInv (Some m) = mkQ 1 0 0 0 ->
  Z.gcd (normSqQ qInv (Some m)) m = 1.
Proof.
  intros Hm Hprod.
  pose proof (normSqQ_mulQ_reduced q qInv m ltac:(lia)) as Hn.
  rewrite Hprod in Hn.
  assert (H1 : normSqQ (mkQ 1 0 0 0) (Some m) = 1).
  { unfold normSqQ. rewrite given_nonzero by lia. cbn [w x y z].
    apply mod_small_id. lia. }
  rewrite H1 in Hn.
  apply (inverse_coprime _ (normSqQ q (Some m)) m Hm).
  unfold eqm. rewrite (Z.mod_small 1 m) by lia.
  rewrite Z.mul_comm. rewrite <- mod_modulo by lia. symmetry. exact Hn.
Qed.

(** X13 (binary64).  Under the same hypotheses, inverting twice gives [q]
    back reduced modulo [m]. *)
Theorem invQ_double_involutive (q : Quaternion) (m : Z) (fuel : nat) :
  1 < m <= 2 ^ 25 ->
  D.within (2 ^ 25) q ->
  Z.gcd (D.normSqQ q (Some m)) m = 1 ->
  (Z.to_nat m < fuel)%nat ->
  exists qInv,
    D.invQ fuel q (Some m) = Some (Inverse qInv) /\
    D.invQ fuel qInv (Some m)
    = Some (Inverse (mkQ (D.mod_ (w q) m) (D.mod_ (x q) m)
                         (D.mod_ (y q) m) (D.mod_ (z q) m))).
Proof.
  intros [Hm Hb'] Hq Hgcd Hfuel.
  assert (Hm0 : 0 < m) by lia.
  rewrite (normSqQ_small_exact m Hm0 Hb' q Hq) in Hgcd.
  destruct (invQ_coprime_inverse q m Hm Hgcd) as (qInv & Hinv & Hr & _).
  destruct (invQ_involutive q m Hm Hgcd) as (qInv' & Hinv' & Hback).
  rewrite Hinv in Hinv'. inversion Hinv'; subst qInv'.
  exists qInv.
  rewrite (invQ_small_exact m Hm0 Hb' fuel q Hq (or_intror Hgcd) Hfuel).
  pose proof (small_invQ m Hm0 Hb' q qInv Hinv) as Hi.
  rewrite (invQ_small_exact m Hm0 Hb' fuel qInv Hi
             (or_intror (inverse_norm_coprime q qInv m Hm Hr)) Hfuel).
  rewrite !mod_double_exact by lia.
  rewrite Hinv, Hback. auto.
Qed.

Lemma invQ_double_involutive_witness :
  exists qInv,
    D.invQ 14 (mkQ 15 (-1) 0 1) (Some 13) = Some (Inverse qInv) /\
    D.invQ 14 qInv (Some 13)
    = Some (Inverse (mkQ (D.mod_ 15 13) (D.mod_ (-1) 13)
                         (D.mod_ 0 13) (D.mod_ 1 13))).
Proof.
  apply (invQ_double_involutive (mkQ 15 (-1) 0 1) 13 14);
    [lia | unfold D.within; cbn; lia | reflexivity | vm_compute; lia].
Defined.





(** X24 (binary64).  Without a modulus, for components at most [2^25] in
    absolute value, [invQ] returns [null] only on the zero quaternion; on
    any other it returns the conjugate over the squared norm [n > 0], and
    the conjugate times the quaternion, on either side, is the scalar
    [(n, 0, 0, 0)]. *)
Theorem invQ_double_without_modulus (q : Quaternion) (fuel : nat) :
  D.within (2 ^ 25) q ->
  (q = mkQ 0 0 0 0 /\ D.invQ fuel q None = Some Null) \/
  (exists c n,
      D.invQ fuel q None = Some (Quotient c n) /\
      0 < n /\
      D.mulQ q c None = mkQ n 0 0 0 /\
      D.mulQ c q None = mkQ n 0 0 0).
Proof.
  intros Hq.
  assert (Hk : 4 * (2 ^ 25 * 2 ^ 25) <= 2 ^ 53) by lia.
  assert (Hrun : D.invQ fuel q None
                 = Some (if normSqQ q None =? 0 then Null
                         else Quotient (conjugateQ q None) (normSqQ q None))).
  { unfold D.invQ. rewrite (normSqQ_double_unreduced q _ Hq Hk).
    destruct (normSqQ q None =? 0); reflexivity. }
  assert (Hc : D.within (2 ^ 25) (conjugateQ q None)).
  { destruct Hq as (H1 & H2 & H3 & H4). unfold D.within, conjugateQ; cbn.
    rewrite !Z.abs_opp. auto. }
  destruct (invQ_without_modulus q) as [[Hz Hnull] | (c & n & Hinv & Hn & Hr & Hl)].
  - left. split; [exact Hz |]. rewrite Hrun. subst q. reflexivity.
  - right. exists c, n.
    unfold invQ in Hinv. cbn [given] in Hinv.
    destruct (normSqQ q None =? 0); [discriminate |].
    inversion Hinv; subst c n.
    rewrite Hrun.
    rewrite (mulQ_double_unreduced q _ _ _ Hq Hc Hk).
    rewrite (mulQ_double_unreduced _ q _ _ Hc Hq Hk).
    auto.
Qed.

Lemma invQ_double_without_modulus_witness :
  (mkQ 2 1 0 1 = mkQ 0 0 0 0 /\ D.invQ 0 (mkQ 2 1 0 1) None = Some Null) \/
  (exists c n,
      D.invQ 0 (mkQ 2 1 0 1) None = Some (Quotient c n) /\
      0 < n /\
      D.mulQ (mkQ 2 1 0 1) c None = mkQ n 0 0 0 /\
      D.mulQ c (mkQ 2 1 0 1) None = mkQ n 0 0 0).
Proof.
  apply (invQ_double_without_modulus (mkQ 2 1 0 1) 0).
  unfold D.within; cbn. lia.
Defined.

End QMathDoubleFacts.
